(** * Resource lifecycle detector (modules/helpers/resource_lifecycle_py.py)

    A shallow embedding of the AST-based detector of unreleased resource
    handles, and the properties of its classification, bookkeeping and
    release matching. *)

From Stdlib Require Import ZArith Sorted.
From stdpp Require Import gmap strings list pretty.

Open Scope string_scope.
Open Scope list_scope.
Open Scope nat_scope.

(** ** Exceptions and the error monad *)

(** The exception classes that matter to [analyze], each standing for the
    class and its subclasses as an [except] clause matches them: the two it
    catches, the one a missing node attribute raises, [ValueError] with its
    subclass [UnicodeDecodeError] (what decoding bytes that are not UTF-8
    raises; neither is an [OSError]), and any other class. *)
Inductive exn : Type :=
| OSError
| SyntaxError
| AttributeError
| UnicodeDecodeError
| ValueError
| OtherError.

Inductive result (A : Type) : Type :=
| Ok (a : A)
| Raise (e : exn).
Arguments Ok {A} a.
Arguments Raise {A} e.

#[global] Instance result_ret : MRet result := λ A a, Ok a.

#[global] Instance result_bind : MBind result := λ A B k m,
  match m with
  | Ok a => k a
  | Raise e => Raise e
  end.

(** ** Signature registry *)

Inductive ResourceKind : Type :=
| file_handle
| socket_handle
| popen_handle
| asyncio_task
| context_cancel.

#[global] Instance ResourceKind_eq_dec : EqDecision ResourceKind.
Proof. solve_decision. Defined.

(** The string each kind is written as in a diagnostic line. *)
Definition kind_tag (k : ResourceKind) : string :=
  match k with
  | file_handle => "file_handle"
  | socket_handle => "socket_handle"
  | popen_handle => "popen_handle"
  | asyncio_task => "asyncio_task"
  | context_cancel => "context_cancel"
  end.

(** [(origin, symbol)], the origin being optional. *)
Definition Signature : Type := option string * string.

(** The dict literal, in source order; its keys are pairwise distinct. *)
Definition TARGET_SIGS : list (Signature * ResourceKind) :=
  [ ((None, "open"), file_handle);
    ((None, "connect"), socket_handle);
    ((None, "Popen"), popen_handle);
    ((None, "popen"), popen_handle);
    ((Some "socket", "socket"), socket_handle);
    ((Some "subprocess", "Popen"), popen_handle);
    ((Some "asyncio", "create_task"), asyncio_task);
    ((Some "context", "WithCancel"), context_cancel);
    ((Some "context", "WithTimeout"), context_cancel);
    ((Some "context", "WithDeadline"), context_cancel) ].

(** [TARGET_SIGS.get(sig)] *)
Fixpoint dict_get {K V : Type} `{EqDecision K} (d : list (K * V)) (k : K) : option V :=
  match d with
  | [] => None
  | (k', v) :: d' => if decide (k' = k) then Some v else dict_get d' k
  end.

Definition target_kind (sig : Signature) : option ResourceKind :=
  dict_get TARGET_SIGS sig.

(** Iteration order of the dict literal is the order written. *)
Definition RELEASE_METHODS : list (ResourceKind * list string) :=
  [ (file_handle, ["close"]);
    (socket_handle, ["close"]);
    (popen_handle, ["wait"; "communicate"; "terminate"; "kill"]);
    (asyncio_task, ["cancel"]) ].

(** The set literal of method names resolved without an origin. *)
Definition bare_callables : list string := ["open"; "connect"; "Popen"; "popen"].

(** An [Optional[str]] used as a condition: [None] and the empty string
    are false. [nonempty] keeps the string of a true one. *)
Definition nonempty (s : option string) : option string :=
  match s with
  | Some s => if bool_decide (s = "") then None else Some s
  | None => None
  end.

(** [a or b], for [b] a string and for [b] optional. *)
Definition or_str (a : option string) (b : string) : string :=
  default b (nonempty a).

Definition or_else (a b : option string) : option string :=
  match nonempty a with
  | Some s => Some s
  | None => b
  end.

(** ** Syntax trees *)

Local Unset Elimination Schemes.

(** Expression nodes. Only call nodes carry the identity [id(node)] and the
    line number, the two node attributes the analyzer reads; [OtherExpr] is
    any expression class without a handler, with its child expressions in
    field order. *)
Inductive expr : Type :=
| Name (id : string)
| Attribute (value : expr) (attr : string)
| Call (node_id : nat) (lineno : Z) (func : expr) (args keywords : list expr)
| Tuple (elts : list expr)
| List_ (elts : list expr)
| Await (value : expr)
| OtherExpr (children : list expr).

Record alias : Type := { alias_name : string; alias_asname : option string }.

Record withitem : Type := { context_expr : expr; optional_vars : option expr }.

(** Nodes that are not expressions: statements, the module, handlers and
    the like. [Generic] is any class without a handler, with its children in
    field order; [NExpr] is an expression child. *)
Inductive node : Type :=
| NExpr (e : expr)
| Import (names : list alias)
| ImportFrom (module : option string) (names : list alias)
| With (items : list withitem) (body : list node)
| AsyncWith (items : list withitem) (body : list node)
| Assign (targets : list expr) (value : expr)
| AnnAssign (target annotation : expr) (value : option expr)
| Generic (children : list node).

Local Set Elimination Schemes.

(** ** Analyzer state *)

Record ResourceRecord : Type := {
  rec_name : option string;
  rec_kind : ResourceKind;
  rec_lineno : Z;
  rec_released : bool
}.

(** [by_name] shares its record objects with [records]: an entry is the
    position of the record in [records], which never changes once the
    record is appended. *)
Record Analyzer : Type := {
  aliases : gmap string (option string * option string);
  records : list ResourceRecord;
  by_name : gmap string (list nat);
  safe_calls : gset nat;
  assigned_calls : gset nat
}.

Definition Analyzer_init : Analyzer :=
  {| aliases := ∅; records := []; by_name := ∅; safe_calls := ∅; assigned_calls := ∅ |}.

Definition set_aliases (a : gmap string (option string * option string)) (st : Analyzer) : Analyzer :=
  {| aliases := a; records := records st; by_name := by_name st;
     safe_calls := safe_calls st; assigned_calls := assigned_calls st |}.

Definition set_store (rs : list ResourceRecord) (bn : gmap string (list nat)) (st : Analyzer) : Analyzer :=
  {| aliases := aliases st; records := rs; by_name := bn;
     safe_calls := safe_calls st; assigned_calls := assigned_calls st |}.

Definition set_safe_calls (s : gset nat) (st : Analyzer) : Analyzer :=
  {| aliases := aliases st; records := records st; by_name := by_name st;
     safe_calls := s; assigned_calls := assigned_calls st |}.

Definition set_assigned_calls (s : gset nat) (st : Analyzer) : Analyzer :=
  {| aliases := aliases st; records := records st; by_name := by_name st;
     safe_calls := safe_calls st; assigned_calls := s |}.

(** ** Imports *)

Definition visit_Import (names : list alias) (st : Analyzer) : Analyzer :=
  fold_left
    (λ st a,
       let asname := or_str (alias_asname a) (alias_name a) in
       set_aliases (<[asname := (Some (alias_name a), None)]> (aliases st)) st)
    names st.

Definition visit_ImportFrom (module : option string) (names : list alias) (st : Analyzer) : Analyzer :=
  let module := or_str module "" in
  fold_left
    (λ st a,
       if bool_decide (alias_name a = "*") then st
       else
         let asname := or_str (alias_asname a) (alias_name a) in
         set_aliases (<[asname := (Some module, Some (alias_name a))]> (aliases st)) st)
    names st.

(** ** Call signatures *)

(** The body of [_call_signature] once [func = call.func] has been read. *)
Definition callee_signature (al : gmap string (option string * option string))
    (func : expr) : option Signature :=
  match func with
  | Name id =>
      let '(module, obj) := default (None, None) (al !! id) in
      match nonempty obj with
      | Some o => Some (module, o)
      | None => Some (module, id)
      end
  | Attribute base attr =>
      match base with
      | Name bid =>
          let '(module, obj) := default (Some bid, None) (al !! bid) in
          if bool_decide (attr ∈ bare_callables) then Some (None, attr)
          else
            match nonempty obj with
            | Some o => Some (or_else module (Some o), attr)
            | None => Some (module, attr)
            end
      | _ =>
          if bool_decide (attr ∈ bare_callables) then Some (None, attr)
          else None
      end
  | _ => None
  end.

(** [call.func] exists on call nodes only; on any other node the attribute
    access raises. *)
Definition _call_signature (al : gmap string (option string * option string))
    (call : expr) : result (option Signature) :=
  match call with
  | Call _ _ func _ _ => Ok (callee_signature al func)
  | _ => Raise AttributeError
  end.

Definition _call_signature_from_expr (al : gmap string (option string * option string))
    (e : expr) : result (option Signature) :=
  match e with
  | Call _ _ _ _ _ => _call_signature al e
  | _ => Ok None
  end.

(** ** Record store *)

Definition _add_record (name : option string) (kind : ResourceKind) (lineno : Z)
    (st : Analyzer) : Analyzer :=
  let rec := {| rec_name := name; rec_kind := kind; rec_lineno := lineno;
                rec_released := false |} in
  let idx := List.length (records st) in
  let rs := records st ++ [rec] in
  match nonempty name with
  | Some n => set_store rs (<[n := default [] (by_name st !! n) ++ [idx]]> (by_name st)) st
  | None => set_store rs (by_name st) st
  end.

Definition mark (r : ResourceRecord) : ResourceRecord :=
  {| rec_name := rec_name r; rec_kind := rec_kind r; rec_lineno := rec_lineno r;
     rec_released := true |}.

(** The test of the scan: [not rec.released and rec.kind == kind]. *)
Definition releasable (kind : ResourceKind) (r : ResourceRecord) : bool :=
  negb (rec_released r) && bool_decide (rec_kind r = kind).

(** The scan over [entries]; an entry always refers to a stored record. *)
Fixpoint scan_entries (kind : ResourceKind) (rs : list ResourceRecord)
    (entries : list nat) : option nat :=
  match entries with
  | [] => None
  | i :: rest =>
      match rs !! i with
      | Some r => if releasable kind r then Some i else scan_entries kind rs rest
      | None => scan_entries kind rs rest
      end
  end.

Definition _mark_released (name : string) (kind : ResourceKind) (st : Analyzer) : Analyzer :=
  match by_name st !! name with
  | None => st
  | Some entries =>
      match scan_entries kind (records st) entries with
      | Some i => set_store (alter mark i (records st)) (by_name st) st
      | None => st
      end
  end.

(** ** With items *)

Definition _mark_safe (items : list withitem) (st : Analyzer) : result Analyzer :=
  foldl
    (λ acc item,
       st ← acc;
       sig ← _call_signature_from_expr (aliases st) (context_expr item);
       match sig, context_expr item with
       | Some sig, Call nid _ _ _ _ =>
           if bool_decide (is_Some (target_kind sig))
           then Ok (set_safe_calls ({[nid]} ∪ safe_calls st) st)
           else Ok st
       | _, _ => Ok st
       end)
    (Ok st) items.

(** ** Assignments *)

Fixpoint _collect_names (n : expr) : list string :=
  match n with
  | Name id => [id]
  | Tuple elts | List_ elts => flat_map _collect_names elts
  | _ => []
  end.

Definition add_records (names : list string) (kind : ResourceKind) (lineno : Z)
    (st : Analyzer) : Analyzer :=
  foldl (λ st name, _add_record (Some name) kind lineno st) st names.

(** [id(value)] and [value.lineno] are read after [_call_signature] has
    returned, hence on a call node. *)
Definition _handle_assignment (targets : list expr) (value : expr) (st : Analyzer)
    : result Analyzer :=
  sig ← _call_signature (aliases st) value;
  match sig, value with
  | Some sig, Call nid lineno _ _ _ =>
      match target_kind sig with
      | None => Ok st
      | Some kind =>
          let st := set_assigned_calls ({[nid]} ∪ assigned_calls st) st in
          let names := flat_map _collect_names targets in
          if bool_decide (kind = context_cancel) then
            match names with
            | _ :: second :: _ => Ok (_add_record (Some second) kind lineno st)
            | [first] => Ok (_add_record (Some first) kind lineno st)
            | [] => Ok (_add_record None kind lineno st)
            end
          else
            match names with
            | [] => Ok (_add_record None kind lineno st)
            | _ => Ok (add_records names kind lineno st)
            end
      end
  | _, _ => Ok st
  end.

(** ** Calls and releases *)

(** The loop over [RELEASE_METHODS.items()], left at the first kind whose
    methods contain [method]. *)
Fixpoint release_loop (table : list (ResourceKind * list string)) (name method : string)
    (st : Analyzer) : Analyzer :=
  match table with
  | [] => st
  | (kind, methods) :: rest =>
      if bool_decide (method ∈ methods) then _mark_released name kind st
      else release_loop rest name method st
  end.

Definition _handle_release (func : expr) (st : Analyzer) : Analyzer :=
  match func with
  | Attribute (Name name) method => release_loop RELEASE_METHODS name method st
  | Name id => _mark_released id context_cancel st
  | _ => st
  end.

(** The first statement of [visit_Call], before the release and the
    descent into the children. *)
Definition classify_call (nid : nat) (lineno : Z) (func : expr) (st : Analyzer) : Analyzer :=
  if bool_decide (nid ∈ assigned_calls st) then st
  else
    match callee_signature (aliases st) func with
    | Some sig =>
        match target_kind sig with
        | Some kind =>
            if bool_decide (nid ∈ safe_calls st) then st
            else _add_record None kind lineno st
        | None => st
        end
    | None => st
    end.

(** [visit] on an expression: [visit_Call], [visit_Await], and
    [generic_visit] on every other class. The interpreter's bound on the
    depth of recursion is left out of the embedding: on an expression
    nested deeper than that bound the source raises [RecursionError] where
    [visit_expr] goes on to the end. *)
Fixpoint visit_expr (e : expr) (st : Analyzer) : Analyzer :=
  match e with
  | Name _ => st
  | Attribute value _ => visit_expr value st
  | Call nid lineno func args keywords =>
      let st := classify_call nid lineno func st in
      let st := _handle_release func st in
      let st := visit_expr func st in
      let st := foldl (λ st a, visit_expr a st) st args in
      foldl (λ st a, visit_expr a st) st keywords
  | Tuple elts | List_ elts | OtherExpr elts =>
      foldl (λ st a, visit_expr a st) st elts
  | Await value =>
      let st :=
        match value with
        | Name id => _mark_released id asyncio_task st
        | _ => st
        end in
      visit_expr value st
  end.

Definition visit_exprs (es : list expr) (st : Analyzer) : Analyzer :=
  foldl (λ st a, visit_expr a st) st es.

Definition visit_withitem (item : withitem) (st : Analyzer) : Analyzer :=
  let st := visit_expr (context_expr item) st in
  match optional_vars item with
  | Some v => visit_expr v st
  | None => st
  end.

(** [visit] on the other nodes. [Raise] is the fault of the code itself;
    as for [visit_expr], the [RecursionError] of a tree nested deeper than
    the interpreter allows is left out, so that [visit n st = Ok st'] reads:
    the traversal, if the interpreter lets it run to the end, returns in
    [st']. *)
Fixpoint visit (n : node) (st : Analyzer) : result Analyzer :=
  match n with
  | NExpr e => Ok (visit_expr e st)
  | Import names => Ok (visit_Import names st)
  | ImportFrom module names => Ok (visit_ImportFrom module names st)
  | With items body | AsyncWith items body =>
      st ← _mark_safe items st;
      let st := foldl (λ st i, visit_withitem i st) st items in
      foldl (λ acc c, st ← acc; visit c st) (Ok st) body
  | Assign targets value =>
      st ← _handle_assignment targets value st;
      let st := visit_exprs targets st in
      Ok (visit_expr value st)
  | AnnAssign target annotation value =>
      st ← match value with
           | Some v => _handle_assignment [target] v st
           | None => Ok st
           end;
      let st := visit_expr target st in
      let st := visit_expr annotation st in
      match value with
      | Some v => Ok (visit_expr v st)
      | None => Ok st
      end
  | Generic children =>
      foldl (λ acc c, st ← acc; visit c st) (Ok st) children
  end.

Definition visit_nodes (ns : list node) (st : Analyzer) : result Analyzer :=
  foldl (λ acc c, st ← acc; visit c st) (Ok st) ns.

(** ** Report *)

Definition tab : string := String (Ascii.ascii_of_nat 9) "".

(** The records [report] writes a line for, and the line of one. *)
Definition unreleased (st : Analyzer) : list ResourceRecord :=
  filter (λ r, rec_released r = false) (records st).

Definition diagnostic (path : string) (r : ResourceRecord) : string :=
  path +:+ ":" +:+ pretty (rec_lineno r) +:+ tab +:+ kind_tag (rec_kind r) +:+ tab.

Definition report (path : string) (st : Analyzer) : list string :=
  diagnostic path <$> unreleased st.

(** ** Per-file analysis and the scan *)

(** [read_text] is the outcome of [path.read_text], [parse] stands for
    [ast.parse]. *)
Definition analyze (path : string) (read_text : result string)
    (parse : string → result node) : result (list string) :=
  match read_text with
  | Raise OSError => Ok []
  | Raise e => Raise e
  | Ok text =>
      match parse text with
      | Raise SyntaxError => Ok []
      | Raise e => Raise e
      | Ok tree =>
          st ← visit tree Analyzer_init;
          Ok (report path st)
      end
  end.

(** The loop of [main] over the collected files, each given by its path
    and the outcome of reading it. *)
Definition scan (parse : string → result node) (files : list (string * result string))
    : result (list string) :=
  foldl (λ acc f, issues ← acc; found ← analyze f.1 f.2 parse; Ok (issues ++ found))
    (Ok []) files.

(** ** Induction on syntax trees *)

Section expr_induction.
Variable P : expr → Prop.
Hypothesis P_Name : ∀ id, P (Name id).
Hypothesis P_Attribute : ∀ value attr, P value → P (Attribute value attr).
Hypothesis P_Call : ∀ nid lineno func args keywords,
  P func → Forall P args → Forall P keywords → P (Call nid lineno func args keywords).
Hypothesis P_Tuple : ∀ elts, Forall P elts → P (Tuple elts).
Hypothesis P_List : ∀ elts, Forall P elts → P (List_ elts).
Hypothesis P_Await : ∀ value, P value → P (Await value).
Hypothesis P_Other : ∀ children, Forall P children → P (OtherExpr children).

Fixpoint expr_ind (e : expr) : P e :=
  let all :=
    fix all (es : list expr) : Forall P es :=
      match es with
      | [] => @List.Forall_nil _ P
      | e :: es => @List.Forall_cons _ P e es (expr_ind e) (all es)
      end in
  match e with
  | Name id => P_Name id
  | Attribute value attr => P_Attribute value attr (expr_ind value)
  | Call nid lineno func args keywords =>
      P_Call nid lineno func args keywords (expr_ind func) (all args) (all keywords)
  | Tuple elts => P_Tuple elts (all elts)
  | List_ elts => P_List elts (all elts)
  | Await value => P_Await value (expr_ind value)
  | OtherExpr children => P_Other children (all children)
  end.
End expr_induction.

Section node_induction.
Variable P : node → Prop.
Hypothesis P_NExpr : ∀ e, P (NExpr e).
Hypothesis P_Import : ∀ names, P (Import names).
Hypothesis P_ImportFrom : ∀ module names, P (ImportFrom module names).
Hypothesis P_With : ∀ items body, Forall P body → P (With items body).
Hypothesis P_AsyncWith : ∀ items body, Forall P body → P (AsyncWith items body).
Hypothesis P_Assign : ∀ targets value, P (Assign targets value).
Hypothesis P_AnnAssign : ∀ target annotation value, P (AnnAssign target annotation value).
Hypothesis P_Generic : ∀ children, Forall P children → P (Generic children).

Fixpoint node_ind (n : node) : P n :=
  let all :=
    fix all (ns : list node) : Forall P ns :=
      match ns with
      | [] => @List.Forall_nil _ P
      | n :: ns => @List.Forall_cons _ P n ns (node_ind n) (all ns)
      end in
  match n with
  | NExpr e => P_NExpr e
  | Import names => P_Import names
  | ImportFrom module names => P_ImportFrom module names
  | With items body => P_With items body (all body)
  | AsyncWith items body => P_AsyncWith items body (all body)
  | Assign targets value => P_Assign targets value
  | AnnAssign target annotation value => P_AnnAssign target annotation value
  | Generic children => P_Generic children (all children)
  end.
End node_induction.

(** ** The record store and its name index *)

(** Positions, counted from [i], of the records owned by [n]. *)
Fixpoint positions (n : string) (rs : list ResourceRecord) (i : nat) : list nat :=
  match rs with
  | [] => []
  | r :: rs =>
      if decide (rec_name r = Some n) then i :: positions n rs (S i)
      else positions n rs (S i)
  end.

(** The position, counted from [i], of the first record owned by [n] that
    is unreleased and of kind [k]. *)
Fixpoint first_releasable (n : string) (k : ResourceKind) (rs : list ResourceRecord)
    (i : nat) : option nat :=
  match rs with
  | [] => None
  | r :: rs =>
      if decide (rec_name r = Some n) then
        if releasable k r then Some i else first_releasable n k rs (S i)
      else first_releasable n k rs (S i)
  end.

(** The index lists, under every name, the records that name owns, in
    creation order; the empty name indexes nothing. *)
Definition store_wf (st : Analyzer) : Prop :=
  ∀ n, default [] (by_name st !! n)
       = if decide (n = "") then [] else positions n (records st) 0.

Definition linenos (st : Analyzer) : list Z := rec_lineno <$> records st.

(** Two states that differ in the record store at most. *)
Definition same_tables (st st' : Analyzer) : Prop :=
  aliases st' = aliases st ∧ safe_calls st' = safe_calls st
  ∧ assigned_calls st' = assigned_calls st.

(** ** Where records may come from *)

(** Line numbers of the call nodes of an expression, in visiting order. *)
Fixpoint call_lines (e : expr) : list Z :=
  match e with
  | Name _ => []
  | Attribute value _ => call_lines value
  | Call _ lineno func args keywords =>
      lineno :: call_lines func ++ flat_map call_lines args ++ flat_map call_lines keywords
  | Tuple elts | List_ elts | OtherExpr elts => flat_map call_lines elts
  | Await value => call_lines value
  end.

(** The same for the call nodes strictly below the top node. *)
Definition inner_call_lines (e : expr) : list Z :=
  match e with
  | Call _ _ func args keywords =>
      call_lines func ++ flat_map call_lines args ++ flat_map call_lines keywords
  | _ => call_lines e
  end.

(** The slots of an assigned value: a call bound to [names] has one slot per
    name, and one if there is no name; the calls below it have one each. *)
Definition bound_slots (names : list string) (value : expr) : list Z :=
  match value with
  | Call _ lineno _ _ _ =>
      replicate (Nat.max 1 (List.length names)) lineno ++ inner_call_lines value
  | _ => call_lines value
  end.

(** The slots of a with item: none for the managed call itself. *)
Definition item_slots (item : withitem) : list Z :=
  inner_call_lines (context_expr item) ++ from_option call_lines [] (optional_vars item).

(** The slots of a tree: the line number of every call node, as many times
    as the traversal may create a record for that node. *)
Fixpoint record_slots (n : node) : list Z :=
  match n with
  | NExpr e => call_lines e
  | Import _ | ImportFrom _ _ => []
  | With items body | AsyncWith items body =>
      flat_map item_slots items ++ flat_map record_slots body
  | Assign targets value =>
      bound_slots (flat_map _collect_names targets) value ++ flat_map call_lines targets
  | AnnAssign target annotation value =>
      from_option (bound_slots (_collect_names target)) [] value
      ++ call_lines target ++ call_lines annotation
  | Generic children => flat_map record_slots children
  end.

(** [st'] has the records of [st], some of them released since, followed
    by new records whose line numbers fit into [slots]. *)
Definition grows (st st' : Analyzer) (slots : list Z) : Prop :=
  ∃ added, linenos st' = linenos st ++ added ∧ added ⊆+ slots.

(** The node identities [_mark_safe] adds. *)
Definition safe_ids (al : gmap string (option string * option string))
    (items : list withitem) : gset nat :=
  foldr
    (λ item acc,
       match context_expr item with
       | Call nid _ func _ _ =>
           match callee_signature al func ≫= target_kind with
           | Some _ => {[nid]} ∪ acc
           | None => acc
           end
       | _ => acc
       end)
    ∅ items.

(** One round of the loop of [_mark_safe]. *)
Definition mark_safe_item (item : withitem) (st : Analyzer) : Analyzer :=
  match context_expr item with
  | Call nid _ func _ _ =>
      match callee_signature (aliases st) func ≫= target_kind with
      | Some _ => set_safe_calls ({[nid]} ∪ safe_calls st) st
      | None => st
      end
  | _ => st
  end.

(** The records a classified assignment creates. *)
Definition assigned_state (targets : list expr) (nid : nat) (lineno : Z)
    (kind : ResourceKind) (st : Analyzer) : Analyzer :=
  let st1 := set_assigned_calls ({[nid]} ∪ assigned_calls st) st in
  let names := flat_map _collect_names targets in
  if bool_decide (kind = context_cancel) then
    _add_record (match names with _ :: second :: _ => Some second
                 | [first] => Some first | [] => None end) kind lineno st1
  else
    match names with
    | [] => _add_record None kind lineno st1
    | _ => add_records names kind lineno st1
    end.

(** The names called as a bare function, [name(...)], within a tree. *)
Fixpoint bare_calls (e : expr) : list string :=
  match e with
  | Name _ => []
  | Attribute value _ => bare_calls value
  | Call _ _ func args keywords =>
      match func with Name id => [id] | _ => [] end
      ++ bare_calls func ++ flat_map bare_calls args ++ flat_map bare_calls keywords
  | Tuple elts | List_ elts | OtherExpr elts => flat_map bare_calls elts
  | Await value => bare_calls value
  end.

Definition item_bare_calls (item : withitem) : list string :=
  bare_calls (context_expr item) ++ from_option bare_calls [] (optional_vars item).

Fixpoint node_bare_calls (n : node) : list string :=
  match n with
  | NExpr e => bare_calls e
  | Import _ | ImportFrom _ _ => []
  | With items body | AsyncWith items body =>
      flat_map item_bare_calls items ++ flat_map node_bare_calls body
  | Assign targets value => flat_map bare_calls targets ++ bare_calls value
  | AnnAssign target annotation value =>
      bare_calls target ++ bare_calls annotation ++ from_option bare_calls [] value
  | Generic children => flat_map node_bare_calls children
  end.

(** ** Programs used in the statements *)

(** An expression statement. *)
Definition Expr (value : expr) : node := Generic [NExpr value].

(** [from socket import socket as sk] and [import socket]. *)
Definition from_socket_import_socket_as_sk : node :=
  ImportFrom (Some "socket") [{| alias_name := "socket"; alias_asname := Some "sk" |}].

Definition import_socket : node :=
  Import [{| alias_name := "socket"; alias_asname := None |}].

(** [a = open(p); a = open(q); a.close()], one statement per line. *)
Definition reopen_then_close : node :=
  Generic
    [ Assign [Name "a"] (Call 1 1 (Name "open") [Name "p"] []);
      Assign [Name "a"] (Call 2 2 (Name "open") [Name "q"] []);
      Expr (Call 3 3 (Attribute (Name "a") "close") [] []) ].

(** [x = f.close()] *)
Definition assign_close_result (nid : nat) (lineno : Z) : node :=
  Assign [Name "x"] (Call nid lineno (Attribute (Name "f") "close") [] []).

(** [x = 5], in a module of its own. *)
Definition assign_constant : node := Generic [Assign [Name "x"] (OtherExpr [])].

(** [data = await fetch_user('abc')], line 9 of
    test-suite/python/clean/async_errors.py. *)
Definition assign_awaited : node :=
  Assign [Name "data"] (Await (Call 1 9 (Name "fetch_user") [OtherExpr []] [])).

(** Line numbers of all the call nodes of a tree. *)
Definition item_call_lines (item : withitem) : list Z :=
  call_lines (context_expr item) ++ from_option call_lines [] (optional_vars item).

Fixpoint node_call_lines (n : node) : list Z :=
  match n with
  | NExpr e => call_lines e
  | Import _ | ImportFrom _ _ => []
  | With items body | AsyncWith items body =>
      flat_map item_call_lines items ++ flat_map node_call_lines body
  | Assign targets value => flat_map call_lines targets ++ call_lines value
  | AnnAssign target annotation value =>
      call_lines target ++ call_lines annotation ++ from_option call_lines [] value
  | Generic children => flat_map node_call_lines children
  end.

(** How often the line [L] occurs. *)
Definition count_line (L : Z) (lines : list Z) : nat :=
  List.length (filter (λ x, x = L) lines).

Definition with_node (is_async : bool) : list withitem → list node → node :=
  if is_async then AsyncWith else With.

(** [a = b = open(p)] *)
Definition fan_out_assignment : node :=
  Generic [Assign [Name "a"; Name "b"] (Call 1 1 (Name "open") [Name "p"] [])].

(** [with open(p) as f: pass] *)
Definition with_open_as_f : list withitem :=
  [ {| context_expr := Call 1 1 (Name "open") [Name "p"] [];
       optional_vars := Some (Name "f") |} ].

(** The analyzer as a completed traversal of [tree] from [st] leaves it. *)
Definition visited_from (st : Analyzer) (tree : node) : Analyzer :=
  match visit tree st with
  | Ok st' => st'
  | Raise _ => st
  end.

(** The analyzer as a completed traversal of [tree] leaves it. *)
Definition visited (tree : node) : Analyzer :=
  match visit tree Analyzer_init with
  | Ok st => st
  | Raise _ => Analyzer_init
  end.

(** [ctx, cancel = context.WithCancel(p)], [ctx2, cancel =
    context.WithCancel(q)] and [cancel()], one statement per line. *)
Definition two_contexts_one_cancel : node :=
  Generic
    [ Assign [Tuple [Name "ctx"; Name "cancel"]]
        (Call 1 1 (Attribute (Name "context") "WithCancel") [Name "p"] []);
      Assign [Tuple [Name "ctx2"; Name "cancel"]]
        (Call 2 2 (Attribute (Name "context") "WithCancel") [Name "q"] []);
      Expr (Call 3 3 (Name "cancel") [] []) ].

(** ** The releases a tree asks for *)

(** The kind the loop of [_handle_release] stops at for [method]. *)
Fixpoint first_kind (table : list (ResourceKind * list string)) (method : string)
    : option ResourceKind :=
  match table with
  | [] => None
  | (kind, methods) :: rest =>
      if bool_decide (method ∈ methods) then Some kind else first_kind rest method
  end.

(** The owner and kind that the call of [func] hands to [_mark_released]. *)
Definition call_release (func : expr) : list (string * ResourceKind) :=
  match func with
  | Attribute (Name name) method =>
      match first_kind RELEASE_METHODS method with
      | Some kind => [(name, kind)]
      | None => []
      end
  | Name id => [(id, context_cancel)]
  | _ => []
  end.

(** Every owner and kind a traversal of the tree hands to
    [_mark_released], from the calls and from the awaits of a name. *)
Fixpoint release_events (e : expr) : list (string * ResourceKind) :=
  match e with
  | Name _ => []
  | Attribute value _ => release_events value
  | Call _ _ func args keywords =>
      call_release func ++ release_events func
      ++ flat_map release_events args ++ flat_map release_events keywords
  | Tuple elts | List_ elts | OtherExpr elts => flat_map release_events elts
  | Await value =>
      match value with Name id => [(id, asyncio_task)] | _ => [] end
      ++ release_events value
  end.

Definition item_release_events (item : withitem) : list (string * ResourceKind) :=
  release_events (context_expr item)
  ++ from_option release_events [] (optional_vars item).

Fixpoint node_release_events (n : node) : list (string * ResourceKind) :=
  match n with
  | NExpr e => release_events e
  | Import _ | ImportFrom _ _ => []
  | With items body | AsyncWith items body =>
      flat_map item_release_events items ++ flat_map node_release_events body
  | Assign targets value => flat_map release_events targets ++ release_events value
  | AnnAssign target annotation value =>
      release_events target ++ release_events annotation
      ++ from_option release_events [] value
  | Generic children => flat_map node_release_events children
  end.

(** [r'] is [r], released since or not. *)
Definition same_record (r r' : ResourceRecord) : Prop :=
  rec_name r' = rec_name r ∧ rec_kind r' = rec_kind r ∧ rec_lineno r' = rec_lineno r
  ∧ (rec_released r = true → rec_released r' = true).

(** [import socket], [s = socket.socket()] and [s.close()]. *)
Definition socket_closed : node :=
  Generic
    [ import_socket;
      Assign [Name "s"] (Call 1 2 (Attribute (Name "socket") "socket") [] []);
      Expr (Call 2 3 (Attribute (Name "s") "close") [] []) ].

(** The record of an acquisition without an owner. *)
Definition anonymous (kind : ResourceKind) (lineno : Z) : ResourceRecord :=
  {| rec_name := None; rec_kind := kind; rec_lineno := lineno; rec_released := false |}.

(** [self.f = open(p)] *)
Definition assign_to_attribute : list expr := [Attribute (Name "self") "f"].

(** [from os import popen] *)
Definition from_os_import_popen : node :=
  ImportFrom (Some "os") [{| alias_name := "popen"; alias_asname := None |}].

(** The local name an alias binds: [alias.asname or alias.name]. *)
Definition alias_key (a : alias) : string := or_str (alias_asname a) (alias_name a).

(** Whether every assignment of the tree assigns the result of a call. *)
Definition is_call (e : expr) : bool :=
  match e with
  | Call _ _ _ _ _ => true
  | _ => false
  end.

Fixpoint assigns_calls_only (n : node) : bool :=
  match n with
  | NExpr _ | Import _ | ImportFrom _ _ => true
  | With _ body | AsyncWith _ body => forallb assigns_calls_only body
  | Assign _ value => is_call value
  | AnnAssign _ _ value => from_option is_call true value
  | Generic children => forallb assigns_calls_only children
  end.

(** ** Collecting the files and the command line *)

(** The set literal of [collect_files]. *)
Definition ignored : list string :=
  [".git"; "__pycache__"; "node_modules"; "dist"; "build"; ".venv"; "env"; "venv"].

(** A path as [pathlib] presents it: its text, [str(path)], and its parts. *)
Record Path : Type := { path_str : string; path_parts : list string }.

(** [found] is what [root.rglob("*.py")] yields, in its order. *)
Definition collect_files (found : list Path) : list Path :=
  foldl
    (λ files path,
       if bool_decide (Exists (λ part, part ∈ ignored) (path_parts path)) then files
       else files ++ [path])
    [] found.

Definition newline : string := String (Ascii.ascii_of_nat 10) "".

(** [sep.join(l)] *)
Fixpoint join (sep : string) (l : list string) : string :=
  match l with
  | [] => ""
  | [x] => x
  | x :: rest => x +:+ sep +:+ join sep rest
  end.

(** How a run of [main] ends: with the usage line on the error stream and
    exit status 2, with what it printed (nothing when there is no
    diagnostic), or with an exception nothing catches. *)
Inductive outcome : Type :=
| Usage
| Finished (printed : option string)
| Uncaught (e : exn).

(** [argv] is [sys.argv]; [rglob] gives what [Path(root).rglob("*.py")]
    yields and [read_text] the outcome of reading a path. *)
Definition main (argv : list string) (rglob : string → list Path)
    (read_text : Path → result string) (parse : string → result node) : outcome :=
  match argv with
  | [_; root] =>
      match scan parse ((λ path, (path_str path, read_text path))
                          <$> collect_files (rglob root)) with
      | Ok [] => Finished None
      | Ok issues => Finished (Some (join newline issues))
      | Raise e => Uncaught e
      end
  | _ => Usage
  end.

(** The diagnostics of a file, none if its analysis raises. *)
Definition issues_of (parse : string → result node) (f : string * result string)
    : list string :=
  match analyze f.1 f.2 parse with
  | Ok issues => issues
  | Raise _ => []
  end.

(** Whether the character occurs in the string. *)
Fixpoint occurs (c : Ascii.ascii) (s : string) : Prop :=
  match s with
  | EmptyString => False
  | String c' s' => c' = c ∨ occurs c s'
  end.

(** The record of an acquisition owned by [owner]. *)
Definition owned (owner : string) (kind : ResourceKind) (lineno : Z) : ResourceRecord :=
  {| rec_name := Some owner; rec_kind := kind; rec_lineno := lineno;
     rec_released := false |}.

(** * Properties *)

(** ** What the traversal leaves alone *)

Lemma same_tables_refl st : same_tables st st.
Proof. by repeat split. Qed.

Lemma same_tables_trans st1 st2 st3 :
  same_tables st1 st2 → same_tables st2 st3 → same_tables st1 st3.
Proof. intros (? & ? & ?) (? & ? & ?). repeat split; congruence. Qed.

Lemma _add_record_tables name kind lineno st :
  same_tables st (_add_record name kind lineno st).
Proof. unfold _add_record. by destruct (nonempty name). Qed.

Lemma _mark_released_tables name kind st :
  same_tables st (_mark_released name kind st).
Proof.
  unfold _mark_released. destruct (by_name st !! name); [|apply same_tables_refl].
  destruct (scan_entries _ _ _); [done|apply same_tables_refl].
Qed.

Lemma release_loop_tables table name method st :
  same_tables st (release_loop table name method st).
Proof.
  induction table as [|[kind methods] rest IH]; simpl; [apply same_tables_refl|].
  case_bool_decide; [apply _mark_released_tables|done].
Qed.

Lemma _handle_release_tables func st : same_tables st (_handle_release func st).
Proof.
  destruct func as [id|[] attr| | | | |]; unfold _handle_release;
    try apply same_tables_refl.
  - apply _mark_released_tables.
  - apply release_loop_tables.
Qed.

Lemma classify_call_tables nid lineno func st :
  same_tables st (classify_call nid lineno func st).
Proof.
  unfold classify_call. case_bool_decide; [apply same_tables_refl|].
  destruct (callee_signature _ _); [|apply same_tables_refl].
  destruct (target_kind _); [|apply same_tables_refl].
  case_bool_decide; [apply same_tables_refl|apply _add_record_tables].
Qed.

Lemma foldl_tables {A} (f : Analyzer → A → Analyzer) (l : list A) :
  Forall (λ a, ∀ st, same_tables st (f st a)) l →
  ∀ st, same_tables st (foldl f st l).
Proof.
  induction 1 as [|a l Ha _ IH]; intros st; simpl; [apply same_tables_refl|].
  eapply same_tables_trans; [apply Ha|apply IH].
Qed.

(** The equations of the traversal. *)
Lemma visit_expr_Call nid lineno func args keywords st :
  visit_expr (Call nid lineno func args keywords) st
  = visit_exprs keywords (visit_exprs args (visit_expr func
      (_handle_release func (classify_call nid lineno func st)))).
Proof. reflexivity. Qed.

Lemma visit_expr_Tuple elts st : visit_expr (Tuple elts) st = visit_exprs elts st.
Proof. reflexivity. Qed.

Lemma visit_expr_List elts st : visit_expr (List_ elts) st = visit_exprs elts st.
Proof. reflexivity. Qed.

Lemma visit_expr_Other elts st : visit_expr (OtherExpr elts) st = visit_exprs elts st.
Proof. reflexivity. Qed.

Lemma visit_exprs_cons e es st :
  visit_exprs (e :: es) st = visit_exprs es (visit_expr e st).
Proof. reflexivity. Qed.

Lemma visit_exprs_app es1 es2 st :
  visit_exprs (es1 ++ es2) st = visit_exprs es2 (visit_exprs es1 st).
Proof. apply foldl_app. Qed.

Lemma visit_nodes_cons n ns st :
  visit_nodes (n :: ns) st = (visit n st ≫= visit_nodes ns).
Proof.
  unfold visit_nodes. simpl. destruct (visit n st) as [st'|e]; [done|].
  simpl. induction ns; simpl; auto.
Qed.

Lemma visit_With items body st :
  visit (With items body) st
  = (_mark_safe items st ≫= λ st,
       visit_nodes body (foldl (λ st i, visit_withitem i st) st items)).
Proof. reflexivity. Qed.

Lemma visit_AsyncWith items body st :
  visit (AsyncWith items body) st = visit (With items body) st.
Proof. reflexivity. Qed.

Lemma visit_Generic children st : visit (Generic children) st = visit_nodes children st.
Proof. reflexivity. Qed.

Lemma visit_exprs_tables_all es :
  Forall (λ e, ∀ st, same_tables st (visit_expr e st)) es →
  ∀ st, same_tables st (visit_exprs es st).
Proof. apply (foldl_tables (λ st a, visit_expr a st)). Qed.

Lemma visit_expr_tables e : ∀ st, same_tables st (visit_expr e st).
Proof.
  induction e as [id|value attr IH|nid lineno func args keywords IHf IHa IHk
                 |elts IH|elts IH|value IH|children IH] using expr_ind;
    intros st.
  - apply same_tables_refl.
  - apply IH.
  - rewrite visit_expr_Call.
    eapply same_tables_trans; [apply classify_call_tables|].
    eapply same_tables_trans; [apply _handle_release_tables|].
    eapply same_tables_trans; [apply IHf|].
    eapply same_tables_trans; by apply visit_exprs_tables_all.
  - by apply visit_exprs_tables_all.
  - by apply visit_exprs_tables_all.
  - eapply same_tables_trans; [|apply IH].
    destruct value; try apply same_tables_refl. apply _mark_released_tables.
  - by apply visit_exprs_tables_all.
Qed.

Lemma visit_exprs_tables es st : same_tables st (visit_exprs es st).
Proof.
  apply visit_exprs_tables_all, Forall_forall.
  intros e _. apply visit_expr_tables.
Qed.

Lemma visit_withitem_tables item st : same_tables st (visit_withitem item st).
Proof.
  unfold visit_withitem.
  destruct (optional_vars item); [|apply visit_expr_tables].
  eapply same_tables_trans; apply visit_expr_tables.
Qed.

(** ** The record store and its name index: lemmas *)

Lemma positions_app n rs1 rs2 i :
  positions n (rs1 ++ rs2) i = positions n rs1 i ++ positions n rs2 (i + List.length rs1).
Proof.
  revert i. induction rs1 as [|r rs1 IH]; intros i; simpl.
  - by rewrite Nat.add_0_r.
  - rewrite IH. replace (S i + List.length rs1) with (i + S (List.length rs1)) by lia.
    by destruct (decide _).
Qed.

Lemma positions_alter_mark n rs j i :
  positions n (alter mark j rs) i = positions n rs i.
Proof.
  revert j i. induction rs as [|r rs IH]; intros [|j] i; try done.
  change (alter mark (S j) (r :: rs)) with (r :: alter mark j rs).
  simpl. by rewrite IH.
Qed.

Lemma scan_positions n k pre rs :
  scan_entries k (pre ++ rs) (positions n rs (List.length pre))
  = first_releasable n k rs (List.length pre).
Proof.
  revert pre. induction rs as [|r rs IH]; intros pre; simpl; [done|].
  specialize (IH (pre ++ [r])). rewrite <- app_assoc, length_app in IH.
  simpl in IH. rewrite Nat.add_1_r in IH.
  destruct (decide _); [|done]. simpl.
  rewrite list_lookup_middle by done.
  by destruct (releasable k r).
Qed.

Lemma first_releasable_None n k rs i :
  (∀ r, r ∈ rs → rec_name r = Some n → releasable k r = false) →
  first_releasable n k rs i = None.
Proof.
  revert i. induction rs as [|r rs IH]; intros i H; simpl; [done|].
  destruct (decide _) as [Hn|].
  - rewrite (H r) by (done || constructor). apply IH.
    intros r' ?. apply H. by constructor.
  - apply IH. intros r' ?. apply H. by constructor.
Qed.

Lemma first_releasable_at n k rs off i r :
  rs !! i = Some r → rec_name r = Some n → releasable k r = true →
  (∀ j r', j < i → rs !! j = Some r' → rec_name r' = Some n → releasable k r' = false) →
  first_releasable n k rs off = Some (off + i).
Proof.
  revert off i. induction rs as [|r0 rs IH]; intros off i Hi Hn Hr Hfirst; [done|].
  destruct i as [|i]; simpl in *.
  - injection Hi as ->. rewrite decide_True, Hr by done. f_equal. lia.
  - replace (off + S i) with (S off + i) by lia.
    assert (first_releasable n k rs (S off) = Some (S off + i)) as ->.
    { apply IH; try done. intros j r' ?. apply (Hfirst (S j)). lia. }
    destruct (decide _); [|done].
    by rewrite (Hfirst 0 r0) by (done || lia).
Qed.

Lemma first_releasable_spec n k rs off i :
  first_releasable n k rs off = Some i →
  ∃ r, off ≤ i ∧ rs !! (i - off) = Some r ∧ rec_name r = Some n ∧ releasable k r = true.
Proof.
  revert off. induction rs as [|r0 rs IH]; intros off H; simpl in *; [done|].
  assert (first_releasable n k rs (S off) = Some i →
          ∃ r, off ≤ i ∧ (r0 :: rs) !! (i - off) = Some r
               ∧ rec_name r = Some n ∧ releasable k r = true) as Hrec.
  { intros (r & ? & ? & ? & ?)%IH. exists r. split; [lia|].
    replace (i - off) with (S (i - S off)) by lia. done. }
  destruct (decide _); [|auto].
  destruct (releasable k r0) eqn:?; [|auto].
  injection H as <-. exists r0. by rewrite Nat.sub_diag.
Qed.

Lemma alter_mark_insert (rs : list ResourceRecord) i r :
  rs !! i = Some r → alter mark i rs = <[i := mark r]> rs.
Proof.
  revert i. induction rs as [|r0 rs IH]; intros [|i] H; try done.
  - by injection H as ->.
  - change (alter mark (S i) (r0 :: rs)) with (r0 :: alter mark i rs).
    simpl. f_equal. by apply IH.
Qed.

Lemma linenos_alter_mark (rs : list ResourceRecord) i :
  rec_lineno <$> alter mark i rs = rec_lineno <$> rs.
Proof.
  revert i. induction rs as [|r rs IH]; intros [|i]; try done.
  change (alter mark (S i) (r :: rs)) with (r :: alter mark i rs).
  simpl. by rewrite IH.
Qed.

Lemma _add_record_records name kind lineno st :
  records (_add_record name kind lineno st)
  = records st ++ [{| rec_name := name; rec_kind := kind; rec_lineno := lineno;
                      rec_released := false |}].
Proof. unfold _add_record. by destruct (nonempty name). Qed.

Lemma _add_record_linenos name kind lineno st :
  linenos (_add_record name kind lineno st) = linenos st ++ [lineno].
Proof. unfold linenos. by rewrite _add_record_records, fmap_app. Qed.

Lemma _mark_released_linenos name kind st :
  linenos (_mark_released name kind st) = linenos st.
Proof.
  unfold linenos, _mark_released. destruct (by_name st !! name); [|done].
  destruct (scan_entries _ _ _); [|done]. apply linenos_alter_mark.
Qed.

Lemma nonempty_Some s m : nonempty s = Some m ↔ s = Some m ∧ m ≠ "".
Proof.
  unfold nonempty. destruct s as [s|]; [|split; [done|by intros [? _]]].
  case_bool_decide as Hs; split.
  - done.
  - by intros [[= ->] ?].
  - by intros [= ->].
  - by intros [[= ->] _].
Qed.

Lemma nonempty_None s : nonempty s = None ↔ s = None ∨ s = Some "".
Proof.
  unfold nonempty. destruct s as [s|]; [|split; [by left|done]].
  case_bool_decide as Hs; split.
  - intros _. right. by rewrite Hs.
  - done.
  - done.
  - by intros [|[= ->]].
Qed.

Lemma Analyzer_init_wf : store_wf Analyzer_init.
Proof. intros n. simpl. rewrite lookup_empty. by destruct (decide _). Qed.

Lemma _add_record_wf name kind lineno st :
  store_wf st → store_wf (_add_record name kind lineno st).
Proof.
  intros Hwf n. specialize (Hwf n) as Hn.
  rewrite _add_record_records, positions_app. simpl.
  unfold _add_record. destruct (nonempty name) as [m|] eqn:Hm; simpl.
  - apply nonempty_Some in Hm as [-> Hm].
    destruct (decide (m = n)) as [->|Hne].
    + rewrite lookup_insert_eq. simpl. rewrite Hn.
      rewrite !decide_False, decide_True by done. done.
    + rewrite lookup_insert_ne, Hn by done.
      destruct (decide (n = "")); [done|].
      rewrite decide_False by congruence. by rewrite app_nil_r.
  - rewrite Hn. destruct (decide (n = "")) as [|Hne]; [done|].
    rewrite decide_False, app_nil_r; [done|].
    apply nonempty_None in Hm as [->| ->]; congruence.
Qed.

Lemma _mark_released_wf name kind st :
  store_wf st → store_wf (_mark_released name kind st).
Proof.
  intros Hwf n. unfold _mark_released.
  destruct (by_name st !! name); [|apply Hwf].
  destruct (scan_entries _ _ _); [|apply Hwf].
  simpl. rewrite positions_alter_mark. apply Hwf.
Qed.

(** What a release does to a well-formed store, in terms of the records. *)
Lemma _mark_released_first name kind st :
  store_wf st → name ≠ "" →
  _mark_released name kind st
  = match first_releasable name kind (records st) 0 with
    | Some i => set_store (alter mark i (records st)) (by_name st) st
    | None => st
    end.
Proof.
  intros Hwf Hne. specialize (Hwf name). rewrite decide_False in Hwf by done.
  pose proof (scan_positions name kind [] (records st)) as Hscan. simpl in Hscan.
  unfold _mark_released. destruct (by_name st !! name) as [entries|]; simpl in Hwf.
  - by rewrite Hwf, Hscan.
  - rewrite <- Hscan, <- Hwf. done.
Qed.

(** ** The records a traversal creates *)

Lemma grows_refl st : grows st st [].
Proof. exists []. by rewrite app_nil_r. Qed.

Lemma grows_trans st1 st2 st3 s1 s2 :
  grows st1 st2 s1 → grows st2 st3 s2 → grows st1 st3 (s1 ++ s2).
Proof.
  intros (a1 & E1 & H1) (a2 & E2 & H2). exists (a1 ++ a2). split.
  - by rewrite E2, E1, app_assoc.
  - by apply submseteq_app.
Qed.

Lemma grows_weaken st st' s s' : s ⊆+ s' → grows st st' s → grows st st' s'.
Proof. intros Hs (a & E & H). exists a. split; [done|by etrans]. Qed.

Lemma grows_same st st' s : linenos st' = linenos st → grows st st' s.
Proof. intros E. exists []. rewrite E, app_nil_r. split; [done|apply submseteq_nil_l]. Qed.

Lemma _add_record_grows name kind lineno st :
  grows st (_add_record name kind lineno st) [lineno].
Proof. exists [lineno]. by rewrite _add_record_linenos. Qed.

Lemma add_records_linenos names kind lineno st :
  linenos (add_records names kind lineno st)
  = linenos st ++ replicate (List.length names) lineno.
Proof.
  unfold add_records. revert st.
  induction names as [|n names IH]; intros st; simpl; [by rewrite app_nil_r|].
  rewrite IH, _add_record_linenos, <- app_assoc. done.
Qed.

Lemma release_loop_linenos table name method st :
  linenos (release_loop table name method st) = linenos st.
Proof.
  induction table as [|[kind methods] rest IH]; simpl; [done|].
  case_bool_decide; [apply _mark_released_linenos|done].
Qed.

Lemma _handle_release_linenos func st :
  linenos (_handle_release func st) = linenos st.
Proof.
  destruct func as [id|[] attr| | | | |]; unfold _handle_release; try done.
  - apply _mark_released_linenos.
  - apply release_loop_linenos.
Qed.

Lemma classify_call_grows nid lineno func st :
  grows st (classify_call nid lineno func st) [lineno].
Proof.
  unfold classify_call. case_bool_decide; [by apply grows_same|].
  destruct (callee_signature _ _); [|by apply grows_same].
  destruct (target_kind _); [|by apply grows_same].
  case_bool_decide; [by apply grows_same|apply _add_record_grows].
Qed.

Lemma visit_exprs_grows_all es :
  Forall (λ e, ∀ st, grows st (visit_expr e st) (call_lines e)) es →
  ∀ st, grows st (visit_exprs es st) (flat_map call_lines es).
Proof.
  induction 1 as [|e es He _ IH]; intros st; [apply grows_refl|].
  rewrite visit_exprs_cons. simpl. eapply grows_trans; [apply He|apply IH].
Qed.

(** Below the top call node, once the node itself is dealt with. *)
Lemma visit_call_children_grows func args keywords st :
  (∀ st, grows st (visit_expr func st) (call_lines func)) →
  Forall (λ e, ∀ st, grows st (visit_expr e st) (call_lines e)) args →
  Forall (λ e, ∀ st, grows st (visit_expr e st) (call_lines e)) keywords →
  grows st (visit_exprs keywords (visit_exprs args (visit_expr func (_handle_release func st))))
    (call_lines func ++ flat_map call_lines args ++ flat_map call_lines keywords).
Proof.
  intros Hf Ha Hk.
  eapply (grows_trans _ (_handle_release func st) _ []);
    [by apply grows_same, _handle_release_linenos|].
  eapply grows_trans; [apply Hf|].
  eapply grows_trans; by apply visit_exprs_grows_all.
Qed.

Lemma visit_expr_grows e : ∀ st, grows st (visit_expr e st) (call_lines e).
Proof.
  induction e as [id|value attr IH|nid lineno func args keywords IHf IHa IHk
                 |elts IH|elts IH|value IH|children IH] using expr_ind;
    intros st.
  - apply grows_refl.
  - apply IH.
  - rewrite visit_expr_Call.
    eapply (grows_trans _ _ _ [lineno]); [apply classify_call_grows|].
    by apply visit_call_children_grows.
  - by apply visit_exprs_grows_all.
  - by apply visit_exprs_grows_all.
  - eapply (grows_trans _ _ _ []); [|apply IH].
    destruct value; try apply grows_refl.
    apply grows_same, _mark_released_linenos.
  - by apply visit_exprs_grows_all.
Qed.

Lemma visit_exprs_grows es st :
  grows st (visit_exprs es st) (flat_map call_lines es).
Proof.
  apply visit_exprs_grows_all, Forall_forall. intros e _. apply visit_expr_grows.
Qed.

(** A call node that [visit_Call] passes over gets no record. *)
Lemma visit_expr_passed_grows nid lineno func args keywords st :
  classify_call nid lineno func st = st →
  grows st (visit_expr (Call nid lineno func args keywords) st)
    (inner_call_lines (Call nid lineno func args keywords)).
Proof.
  intros Hpass. rewrite visit_expr_Call, Hpass.
  apply visit_call_children_grows; [apply visit_expr_grows|..];
    apply Forall_forall; intros e _; apply visit_expr_grows.
Qed.

(** ** With items and assignments *)

Lemma safe_ids_app al items1 items2 :
  safe_ids al (items1 ++ items2) = safe_ids al items1 ∪ safe_ids al items2.
Proof.
  induction items1 as [|i items1 IH]; simpl; [by rewrite (left_id_L ∅ (∪))|].
  destruct (context_expr i); try done.
  destruct (_ ≫= _); [|done]. by rewrite IH, (assoc_L (∪)).
Qed.

Lemma _mark_safe_fold items st :
  _mark_safe items st = Ok (foldl (λ st item, mark_safe_item item st) st items).
Proof.
  unfold _mark_safe. induction items as [|item items IH] using rev_ind; [done|].
  rewrite !foldl_app, IH. simpl. unfold mark_safe_item.
  destruct (context_expr item) as [| |nid lineno func args keywords| | | |]; try done.
  simpl. destruct (callee_signature _ func) as [sig|]; [|done].
  simpl. by destruct (target_kind sig).
Qed.

Lemma _mark_safe_spec items st :
  ∃ st1, _mark_safe items st = Ok st1
         ∧ aliases st1 = aliases st ∧ records st1 = records st
         ∧ by_name st1 = by_name st ∧ assigned_calls st1 = assigned_calls st
         ∧ safe_calls st1 = safe_ids (aliases st) items ∪ safe_calls st.
Proof.
  rewrite _mark_safe_fold. eexists. split; [done|].
  induction items as [|item items IH] using rev_ind.
  - repeat split. simpl. by rewrite (left_id_L ∅ (∪)).
  - rewrite foldl_app, safe_ids_app. simpl.
    destruct IH as (Hal & Hr & Hb & Ha & Hs).
    set (st1 := foldl _ st items) in *. unfold mark_safe_item. rewrite Hal.
    assert (safe_ids (aliases st) items ∪ ∅ ∪ safe_calls st = safe_calls st1) as Hskip.
    { by rewrite Hs, (right_id_L ∅ (∪)). }
    destruct (context_expr item) as [| |nid lineno func args keywords| | | |];
      try (by rewrite Hskip).
    destruct (_ ≫= _).
    + repeat split; try done. simpl. rewrite Hs.
      rewrite (right_id_L ∅ (∪)), (assoc_L (∪)). f_equal. apply (comm_L (∪)).
    + by rewrite Hskip.
Qed.

(** A marked node, and a node whose callee is not registered, are passed
    over by [visit_Call] as long as the tables stay as they are. *)
Lemma classify_call_safe nid lineno func st :
  nid ∈ safe_calls st → classify_call nid lineno func st = st.
Proof.
  intros Hin. unfold classify_call. case_bool_decide; [done|].
  destruct (callee_signature _ _); [|done]. destruct (target_kind _); [|done].
  by rewrite bool_decide_eq_true_2.
Qed.

Lemma classify_call_assigned nid lineno func st :
  nid ∈ assigned_calls st → classify_call nid lineno func st = st.
Proof. intros Hin. unfold classify_call. by rewrite bool_decide_eq_true_2. Qed.

Lemma classify_call_unregistered nid lineno func st :
  callee_signature (aliases st) func ≫= target_kind = None →
  classify_call nid lineno func st = st.
Proof.
  intros Hno. unfold classify_call. case_bool_decide; [done|].
  destruct (callee_signature _ _); [|done]. simpl in Hno. by rewrite Hno.
Qed.

Lemma safe_ids_managed al items item nid lineno func args keywords :
  item ∈ items → context_expr item = Call nid lineno func args keywords →
  is_Some (callee_signature al func ≫= target_kind) → nid ∈ safe_ids al items.
Proof.
  intros Hin Hctx [kind Hk]. induction Hin as [item items|item i items _ IH]; simpl.
  - rewrite Hctx, Hk. by apply elem_of_union_l, elem_of_singleton.
  - specialize (IH Hctx). destruct (context_expr i) as [| |? ? f ? ?| | | |]; try done.
    destruct (callee_signature al f ≫= target_kind); [by apply elem_of_union_r|done].
Qed.

Lemma visit_withitem_grows item st :
  (∀ nid lineno func args keywords,
     context_expr item = Call nid lineno func args keywords →
     nid ∈ safe_calls st ∨ callee_signature (aliases st) func ≫= target_kind = None) →
  grows st (visit_withitem item st) (item_slots item).
Proof.
  intros Hmanaged. unfold visit_withitem, item_slots.
  assert (grows st (visit_expr (context_expr item) st)
            (inner_call_lines (context_expr item))) as Hctx.
  { destruct (context_expr item) as [| |nid lineno func args keywords| | | |] eqn:E;
      try apply visit_expr_grows.
    apply visit_expr_passed_grows.
    destruct (Hmanaged _ _ _ _ _ eq_refl);
      [by apply classify_call_safe|by apply classify_call_unregistered]. }
  destruct (optional_vars item) as [v|]; simpl.
  - eapply grows_trans; [apply Hctx|apply visit_expr_grows].
  - by rewrite app_nil_r.
Qed.

Lemma visit_withitems_grows items : ∀ st,
  Forall (λ item, ∀ nid lineno func args keywords,
     context_expr item = Call nid lineno func args keywords →
     nid ∈ safe_calls st ∨ callee_signature (aliases st) func ≫= target_kind = None) items →
  grows st (foldl (λ st i, visit_withitem i st) st items) (flat_map item_slots items)
  ∧ same_tables st (foldl (λ st i, visit_withitem i st) st items).
Proof.
  induction items as [|item items IH]; intros st Hall.
  - split; [apply grows_refl|apply same_tables_refl].
  - apply Forall_cons_1 in Hall as [Hitem Hall]. simpl.
    pose proof (visit_withitem_tables item st) as Ht.
    destruct (IH (visit_withitem item st)) as [Hg Ht'].
    { destruct Ht as (-> & -> & _). done. }
    split.
    + eapply grows_trans; [by apply visit_withitem_grows|done].
    + by eapply same_tables_trans.
Qed.

Lemma _handle_assignment_noncall targets value st :
  (∀ nid lineno func args keywords, value ≠ Call nid lineno func args keywords) →
  _handle_assignment targets value st = Raise AttributeError.
Proof. intros Hno. destruct value; try done. by edestruct Hno. Qed.

Lemma _handle_assignment_unregistered targets nid lineno func args keywords st :
  callee_signature (aliases st) func ≫= target_kind = None →
  _handle_assignment targets (Call nid lineno func args keywords) st = Ok st.
Proof.
  intros Hno. unfold _handle_assignment. simpl.
  destruct (callee_signature _ _); [|done]. simpl in Hno. by rewrite Hno.
Qed.

Lemma _handle_assignment_registered targets nid lineno func args keywords kind st :
  callee_signature (aliases st) func ≫= target_kind = Some kind →
  _handle_assignment targets (Call nid lineno func args keywords) st
  = Ok (assigned_state targets nid lineno kind st).
Proof.
  intros Hk. unfold _handle_assignment, assigned_state. simpl.
  destruct (callee_signature _ _); [|done]. simpl in Hk. rewrite Hk.
  case_bool_decide; [by destruct (flat_map _ _) as [|? [|? ?]]|].
  by destruct (flat_map _ _).
Qed.

Lemma bind_Ok {A B} (m : result A) (k : A → result B) b :
  m ≫= k = Ok b → ∃ a, m = Ok a ∧ k a = Ok b.
Proof. destruct m as [a|e]; [by exists a|done]. Qed.

Lemma visit_Import_store names st :
  records (visit_Import names st) = records st
  ∧ by_name (visit_Import names st) = by_name st.
Proof.
  unfold visit_Import. revert st. induction names as [|a names IH]; intros st; [done|].
  simpl. by destruct (IH (set_aliases
    (<[or_str (alias_asname a) (alias_name a) := (Some (alias_name a), None)]> (aliases st)) st))
    as [-> ->].
Qed.

Lemma visit_ImportFrom_store module names st :
  records (visit_ImportFrom module names st) = records st
  ∧ by_name (visit_ImportFrom module names st) = by_name st.
Proof.
  unfold visit_ImportFrom. generalize (or_str module "") as m. intros m. revert st.
  induction names as [|a names IH]; intros st; [done|].
  simpl. case_bool_decide; [apply IH|].
  by destruct (IH (set_aliases
    (<[or_str (alias_asname a) (alias_name a) := (Some m, Some (alias_name a))]> (aliases st)) st))
    as [-> ->].
Qed.

Lemma replicate_max_submseteq (x : Z) n : [x] ⊆+ replicate (Nat.max 1 n) x.
Proof.
  destruct (Nat.max 1 n) as [|m] eqn:E; [lia|]. simpl.
  apply submseteq_skip, submseteq_nil_l.
Qed.

Lemma assigned_state_spec targets nid lineno kind st :
  let st1 := assigned_state targets nid lineno kind st in
  grows st st1 (replicate (Nat.max 1 (List.length (flat_map _collect_names targets))) lineno)
  ∧ aliases st1 = aliases st ∧ safe_calls st1 = safe_calls st
  ∧ nid ∈ assigned_calls st1.
Proof.
  unfold assigned_state.
  set (st0 := set_assigned_calls ({[nid]} ∪ assigned_calls st) st).
  set (names := flat_map _collect_names targets).
  assert (linenos st0 = linenos st) as Hl by done.
  assert (nid ∈ assigned_calls st0) as Hin by (simpl; set_solver).
  assert (∀ name, let st1 := _add_record name kind lineno st0 in
            grows st st1 (replicate (Nat.max 1 (List.length names)) lineno)
            ∧ aliases st1 = aliases st ∧ safe_calls st1 = safe_calls st
            ∧ nid ∈ assigned_calls st1) as Hone.
  { intros name. pose proof (_add_record_tables name kind lineno st0) as (Ha & Hs & Hc).
    simpl. rewrite Ha, Hs, Hc. repeat split; try done.
    exists [lineno]. rewrite _add_record_linenos, Hl.
    split; [done|apply replicate_max_submseteq]. }
  case_bool_decide; [apply Hone|].
  assert (same_tables st0 (add_records names kind lineno st0)) as (Ha & Hs & Hc).
  { unfold add_records. apply foldl_tables, Forall_forall.
    intros ? _ ?. apply _add_record_tables. }
  destruct names as [|n rest] eqn:E; [apply Hone|]. rewrite <- E in *.
  simpl. rewrite Ha, Hs, Hc. repeat split; try done.
  eexists. rewrite add_records_linenos, Hl. split; [done|].
  by replace (Nat.max 1 (List.length names)) with (List.length names)
    by (rewrite E; simpl; lia).
Qed.

(** The value of an assignment, visited after the expressions [mid]. *)
Lemma assignment_grows targets value mid st st1 :
  _handle_assignment targets value st = Ok st1 →
  grows st (visit_expr value (visit_exprs mid st1))
    (bound_slots (flat_map _collect_names targets) value ++ flat_map call_lines mid).
Proof.
  intros Hassign.
  destruct value as [| |nid lineno func args keywords| | | |]; try done.
  pose proof (visit_exprs_grows mid st1) as Hmid.
  pose proof (visit_exprs_tables mid st1) as (Hal & Hsafe & Hasg).
  set (slots := replicate (Nat.max 1 (List.length (flat_map _collect_names targets))) lineno).
  assert (grows st st1 slots ∧ classify_call nid lineno func (visit_exprs mid st1)
                               = visit_exprs mid st1) as [Hst1 Hpass].
  { destruct (callee_signature (aliases st) func ≫= target_kind) as [kind|] eqn:Hk.
    - rewrite (_handle_assignment_registered _ _ _ _ _ _ kind) in Hassign by done.
      injection Hassign as <-.
      destruct (assigned_state_spec targets nid lineno kind st) as (Hg & _ & _ & Hin).
      split; [done|]. apply classify_call_assigned. by rewrite Hasg.
    - rewrite _handle_assignment_unregistered in Hassign by done.
      injection Hassign as <-. split.
      + apply grows_same. done.
      + apply classify_call_unregistered. by rewrite Hal.
  }
  eapply grows_weaken;
    [|exact (grows_trans _ _ _ _ _ Hst1 (grows_trans _ _ _ _ _ Hmid
        (visit_expr_passed_grows _ _ _ args keywords _ Hpass)))].
  unfold bound_slots. fold slots. rewrite <- !app_assoc.
  apply submseteq_app; [done|].
  apply Permutation_submseteq, Permutation_app_comm.
Qed.

Lemma visit_nodes_grows ns :
  Forall (λ n, ∀ st st', visit n st = Ok st' → grows st st' (record_slots n)) ns →
  ∀ st st', visit_nodes ns st = Ok st' → grows st st' (flat_map record_slots ns).
Proof.
  induction 1 as [|n ns Hn _ IH]; intros st st' Hv.
  - injection Hv as <-. apply grows_refl.
  - rewrite visit_nodes_cons in Hv. apply bind_Ok in Hv as (st1 & H1 & H2).
    simpl. eapply grows_trans; [by apply Hn|by apply IH].
Qed.

Lemma with_items_managed items st st1 :
  _mark_safe items st = Ok st1 →
  Forall (λ item, ∀ nid lineno func args keywords,
     context_expr item = Call nid lineno func args keywords →
     nid ∈ safe_calls st1 ∨ callee_signature (aliases st1) func ≫= target_kind = None) items.
Proof.
  intros Hsafe. destruct (_mark_safe_spec items st) as (st1' & E & Hal & _ & _ & _ & Hs).
  rewrite E in Hsafe. injection Hsafe as ->.
  apply Forall_forall. intros item Hin nid lineno func args keywords Hctx.
  rewrite Hal, Hs.
  destruct (callee_signature (aliases st) func ≫= target_kind) eqn:Hk; [left|by right].
  apply elem_of_union_l. eapply safe_ids_managed; [done..|]. by rewrite Hk.
Qed.

(** Every record the traversal creates fits a slot of the tree. *)
Lemma visit_grows n : ∀ st st', visit n st = Ok st' → grows st st' (record_slots n).
Proof.
  assert (∀ items body, Forall (λ n, ∀ st st', visit n st = Ok st' →
            grows st st' (record_slots n)) body →
          ∀ st st', visit (With items body) st = Ok st' →
            grows st st' (flat_map item_slots items ++ flat_map record_slots body)) as HWith.
  { intros items body IH st st' Hv. rewrite visit_With in Hv.
    apply bind_Ok in Hv as (st1 & Hsafe & Hbody).
    pose proof (with_items_managed _ _ _ Hsafe) as Hman.
    destruct (_mark_safe_spec items st) as (st1' & E & _ & Hr & _).
    rewrite E in Hsafe. injection Hsafe as ->.
    destruct (visit_withitems_grows items st1 Hman) as [Hitems _].
    apply (grows_trans st st1 st' []); [apply grows_same; unfold linenos; by rewrite Hr|].
    eapply grows_trans; [done|]. by apply visit_nodes_grows. }
  induction n as [e|names|module names|items body IH|items body IH|targets value
                 |target annotation value|children IH] using node_ind;
    intros st st' Hv.
  - injection Hv as <-. apply visit_expr_grows.
  - injection Hv as <-. apply grows_same. unfold linenos.
    by destruct (visit_Import_store names st) as [-> _].
  - injection Hv as <-. apply grows_same. unfold linenos.
    by destruct (visit_ImportFrom_store module names st) as [-> _].
  - by apply HWith.
  - rewrite visit_AsyncWith in Hv. by apply HWith.
  - simpl in Hv. apply bind_Ok in Hv as (st1 & Hassign & Hv). injection Hv as <-.
    by apply assignment_grows.
  - simpl in Hv. apply bind_Ok in Hv as (st1 & Hassign & Hv).
    destruct value as [v|]; injection Hv as <-.
    + pose proof (assignment_grows [target] v [target; annotation] st st1 Hassign) as Hg.
      simpl in Hg. by rewrite !app_nil_r in Hg.
    + injection Hassign as <-.
      pose proof (visit_exprs_grows [target; annotation] st) as Hg.
      simpl in Hg. by rewrite app_nil_r in Hg.
  - rewrite visit_Generic in Hv. by apply visit_nodes_grows.
Qed.

(** ** Invariants of the store along a traversal *)

Lemma flat_map_subseteq {A B} (f : A → list B) (l : list A) (c : list B) :
  flat_map f l ⊆ c → Forall (λ x, f x ⊆ c) l.
Proof.
  induction l as [|x l IH]; simpl; intros H; constructor.
  - intros y Hy. apply H, elem_of_app. by left.
  - apply IH. intros y Hy. apply H, elem_of_app. by right.
Qed.

Lemma app_subseteq_l {B} (l1 l2 c : list B) : l1 ++ l2 ⊆ c → l1 ⊆ c.
Proof. intros H y Hy. apply H, elem_of_app. by left. Qed.

Lemma app_subseteq_r {B} (l1 l2 c : list B) : l1 ++ l2 ⊆ c → l2 ⊆ c.
Proof. intros H y Hy. apply H, elem_of_app. by right. Qed.

Lemma RELEASE_METHODS_kinds :
  Forall (λ p : ResourceKind * list string, p.1 ≠ context_cancel) RELEASE_METHODS.
Proof. repeat constructor; done. Qed.

Section store_invariant.
Variable I : Analyzer → Prop.
Variable called : list string.
Hypothesis I_add : ∀ name kind lineno st, I st → I (_add_record name kind lineno st).
Hypothesis I_release : ∀ n k st,
  (k = context_cancel → n ∈ called) → I st → I (_mark_released n k st).
Hypothesis I_tables : ∀ st st',
  records st' = records st → by_name st' = by_name st → I st → I st'.

Lemma release_loop_inv table name method st :
  Forall (λ p : ResourceKind * list string, p.1 ≠ context_cancel) table →
  I st → I (release_loop table name method st).
Proof.
  induction 1 as [|[kind methods] rest Hk _ IH]; intros HI; simpl; [done|].
  case_bool_decide; [|by apply IH]. by apply I_release.
Qed.

Lemma classify_call_inv nid lineno func st : I st → I (classify_call nid lineno func st).
Proof.
  intros HI. unfold classify_call. case_bool_decide; [done|].
  destruct (callee_signature _ _); [|done]. destruct (target_kind _); [|done].
  case_bool_decide; [done|by apply I_add].
Qed.

Lemma _handle_release_inv func st :
  match func with Name id => [id] | _ => [] end ⊆ called →
  I st → I (_handle_release func st).
Proof.
  intros Hc HI. destruct func as [id|[] attr| | | | |]; unfold _handle_release; try done.
  - apply I_release; [|done]. intros _. apply Hc. by left.
  - by apply release_loop_inv; [apply RELEASE_METHODS_kinds|].
Qed.

Lemma visit_exprs_inv_all es :
  Forall (λ e, bare_calls e ⊆ called → ∀ st, I st → I (visit_expr e st)) es →
  flat_map bare_calls es ⊆ called → ∀ st, I st → I (visit_exprs es st).
Proof.
  induction 1 as [|e es He _ IH]; intros Hc st HI; [done|].
  rewrite visit_exprs_cons. simpl in Hc.
  apply IH; [by eapply app_subseteq_r|]. apply He; [by eapply app_subseteq_l|done].
Qed.

Lemma visit_expr_inv e : bare_calls e ⊆ called → ∀ st, I st → I (visit_expr e st).
Proof.
  induction e as [id|value attr IH|nid lineno func args keywords IHf IHa IHk
                 |elts IH|elts IH|value IH|children IH] using expr_ind;
    intros Hc st HI.
  - done.
  - by apply IH.
  - rewrite visit_expr_Call. simpl in Hc.
    pose proof (app_subseteq_l _ _ _ Hc) as Hhead.
    apply app_subseteq_r in Hc. pose proof (app_subseteq_l _ _ _ Hc) as Hfunc.
    apply app_subseteq_r in Hc.
    apply visit_exprs_inv_all; [done|by eapply app_subseteq_r|].
    apply visit_exprs_inv_all; [done|by eapply app_subseteq_l|].
    apply IHf; [done|]. apply _handle_release_inv; [done|].
    by apply classify_call_inv.
  - by apply visit_exprs_inv_all.
  - by apply visit_exprs_inv_all.
  - simpl. apply IH; [done|]. destruct value; try done.
    by apply I_release.
  - by apply visit_exprs_inv_all.
Qed.

Lemma visit_exprs_inv es :
  flat_map bare_calls es ⊆ called → ∀ st, I st → I (visit_exprs es st).
Proof.
  apply visit_exprs_inv_all, Forall_forall. intros e _. apply visit_expr_inv.
Qed.

Lemma _handle_assignment_inv targets value st st1 :
  _handle_assignment targets value st = Ok st1 → I st → I st1.
Proof.
  intros Hassign HI.
  destruct value as [| |nid lineno func args keywords| | | |]; try done.
  destruct (callee_signature (aliases st) func ≫= target_kind) as [kind|] eqn:Hk.
  - rewrite (_handle_assignment_registered _ _ _ _ _ _ kind) in Hassign by done.
    injection Hassign as <-. unfold assigned_state.
    set (st0 := set_assigned_calls _ st).
    assert (I st0) as HI0 by (by apply (I_tables st)).
    case_bool_decide; [by apply I_add|].
    destruct (flat_map _ _) as [|n names]; [by apply I_add|].
    unfold add_records. generalize (n :: names) as l. intros l.
    revert HI0. generalize st0. induction l as [|x l IH]; intros s Hs; [done|].
    simpl. by apply IH, I_add.
  - rewrite _handle_assignment_unregistered in Hassign by done. by injection Hassign as <-.
Qed.

Lemma visit_withitems_inv items :
  flat_map item_bare_calls items ⊆ called →
  ∀ st, I st → I (foldl (λ st i, visit_withitem i st) st items).
Proof.
  induction items as [|item items IH]; intros Hc st HI; [done|].
  simpl in *. apply IH; [by eapply app_subseteq_r|].
  apply app_subseteq_l in Hc. unfold visit_withitem, item_bare_calls in *.
  pose proof (visit_expr_inv (context_expr item) (app_subseteq_l _ _ _ Hc) st HI) as H1.
  destruct (optional_vars item) as [v|]; [|done].
  apply visit_expr_inv; [by eapply app_subseteq_r|done].
Qed.

Lemma visit_nodes_inv ns :
  Forall (λ n, node_bare_calls n ⊆ called → ∀ st st', visit n st = Ok st' → I st → I st') ns →
  flat_map node_bare_calls ns ⊆ called →
  ∀ st st', visit_nodes ns st = Ok st' → I st → I st'.
Proof.
  induction 1 as [|n ns Hn _ IH]; intros Hc st st' Hv HI.
  - by injection Hv as <-.
  - rewrite visit_nodes_cons in Hv. apply bind_Ok in Hv as (st1 & H1 & H2).
    simpl in Hc. eapply IH; [by eapply app_subseteq_r|done|].
    eapply Hn; [by eapply app_subseteq_l|done..].
Qed.

Lemma visit_inv n :
  node_bare_calls n ⊆ called → ∀ st st', visit n st = Ok st' → I st → I st'.
Proof.
  assert (∀ items body, Forall (λ n, node_bare_calls n ⊆ called →
            ∀ st st', visit n st = Ok st' → I st → I st') body →
          node_bare_calls (With items body) ⊆ called →
          ∀ st st', visit (With items body) st = Ok st' → I st → I st') as HWith.
  { intros items body IH Hc st st' Hv HI. rewrite visit_With in Hv.
    apply bind_Ok in Hv as (st1 & Hsafe & Hbody).
    destruct (_mark_safe_spec items st) as (st1' & E & _ & Hr & Hb & _).
    rewrite E in Hsafe. injection Hsafe as ->. simpl in Hc.
    eapply visit_nodes_inv; [done|by eapply app_subseteq_r|done|].
    apply visit_withitems_inv; [by eapply app_subseteq_l|].
    by apply (I_tables st). }
  induction n as [e|names|module names|items body IH|items body IH|targets value
                 |target annotation value|children IH] using node_ind;
    intros Hc st st' Hv HI.
  - injection Hv as <-. by apply visit_expr_inv.
  - injection Hv as <-. destruct (visit_Import_store names st). by apply (I_tables st).
  - injection Hv as <-. destruct (visit_ImportFrom_store module names st).
    by apply (I_tables st).
  - by eapply HWith.
  - rewrite visit_AsyncWith in Hv. by eapply HWith.
  - simpl in Hv, Hc. apply bind_Ok in Hv as (st1 & Hassign & Hv). injection Hv as <-.
    apply visit_expr_inv; [by eapply app_subseteq_r|].
    apply visit_exprs_inv; [by eapply app_subseteq_l|].
    by eapply _handle_assignment_inv.
  - simpl in Hv, Hc. apply bind_Ok in Hv as (st1 & Hassign & Hv).
    assert (I st1) as HI1.
    { destruct value; [by eapply _handle_assignment_inv|by injection Hassign as <-]. }
    assert (I (visit_expr annotation (visit_expr target st1))) as HI2.
    { apply visit_expr_inv; [by eapply app_subseteq_l, app_subseteq_r|].
      apply visit_expr_inv; [by eapply app_subseteq_l|done]. }
    destruct value as [v|]; injection Hv as <-; [|done].
    apply visit_expr_inv; [|done]. by eapply app_subseteq_r, app_subseteq_r.
  - rewrite visit_Generic in Hv. by eapply visit_nodes_inv.
Qed.
End store_invariant.

(** The index agrees with the records throughout a traversal. *)
Lemma visit_wf n st st' : visit n st = Ok st' → store_wf st → store_wf st'.
Proof.
  apply (visit_inv store_wf (node_bare_calls n)); try done.
  - intros. by apply _add_record_wf.
  - intros. by apply _mark_released_wf.
  - intros s s' Hr Hb Hwf x. rewrite Hr, Hb. apply Hwf.
Qed.

(** Every state the analysis of a file ends in is of that kind. *)
Lemma analysis_wf tree st : visit tree Analyzer_init = Ok st → store_wf st.
Proof. intros Hv. eapply visit_wf; [done|apply Analyzer_init_wf]. Qed.

Lemma visit_expr_wf e st : store_wf st → store_wf (visit_expr e st).
Proof.
  apply (visit_expr_inv store_wf (bare_calls e)); try done.
  - intros. by apply _add_record_wf.
  - intros. by apply _mark_released_wf.
Qed.

(** ** Aliases and signatures *)

(** C9: once [from socket import socket as sk] and [import socket] are
    recorded, in either order and whatever the tables held before, the calls
    [sk(...)] and [socket.socket(...)] resolve to the same signature,
    [(socket, socket)], which is registered as a socket handle. *)
Theorem aliased_and_qualified_socket_agree :
  ∀ (st : Analyzer) (imports : list node) nid1 l1 args1 kws1 nid2 l2 args2 kws2,
    imports ∈ [ [from_socket_import_socket_as_sk; import_socket];
                [import_socket; from_socket_import_socket_as_sk] ] →
    ∃ st', visit_nodes imports st = Ok st'
      ∧ _call_signature (aliases st') (Call nid1 l1 (Name "sk") args1 kws1)
        = Ok (Some (Some "socket", "socket"))
      ∧ _call_signature (aliases st') (Call nid2 l2 (Attribute (Name "socket") "socket") args2 kws2)
        = Ok (Some (Some "socket", "socket"))
      ∧ target_kind (Some "socket", "socket") = Some socket_handle.
Proof.
  intros st imports nid1 l1 args1 kws1 nid2 l2 args2 kws2 Himports.
  assert (imports = [from_socket_import_socket_as_sk; import_socket]
          ∨ imports = [import_socket; from_socket_import_socket_as_sk]) as [-> | ->].
  { apply elem_of_cons in Himports as [|Himports]; [by left|].
    apply list_elem_of_singleton in Himports. by right. }
  - eexists. split; [reflexivity|]. cbn -[lookup insert].
    repeat (case_bool_decide; [done|]). cbn -[lookup insert].
    rewrite lookup_insert_ne, lookup_insert_eq by done. rewrite lookup_insert_eq. done.
  - eexists. split; [reflexivity|]. cbn -[lookup insert].
    repeat (case_bool_decide; [done|]). cbn -[lookup insert].
    rewrite lookup_insert_eq. rewrite lookup_insert_ne, lookup_insert_eq by done. done.
Qed.

Lemma aliased_and_qualified_socket_agree_witness :
  ∃ st', visit_nodes [from_socket_import_socket_as_sk; import_socket] Analyzer_init = Ok st'
    ∧ _call_signature (aliases st') (Call 1 1 (Name "sk") [] [])
      = Ok (Some (Some "socket", "socket"))
    ∧ _call_signature (aliases st') (Call 2 2 (Attribute (Name "socket") "socket") [] [])
      = Ok (Some (Some "socket", "socket"))
    ∧ target_kind (Some "socket", "socket") = Some socket_handle.
Proof.
  apply (aliased_and_qualified_socket_agree Analyzer_init
           [from_socket_import_socket_as_sk; import_socket]).
  apply elem_of_cons. by left.
Defined.

(** ** Release matching *)

Lemma scan_entries_Some k rs entries j :
  scan_entries k rs entries = Some j → ∃ r, rs !! j = Some r ∧ releasable k r = true.
Proof.
  induction entries as [|i rest IH]; simpl; [done|].
  destruct (rs !! i) as [r|] eqn:Hi; [|done].
  destruct (releasable k r) eqn:Hr; [|done].
  intros [= <-]. by exists r.
Qed.

Lemma releasable_true k r :
  releasable k r = true ↔ rec_released r = false ∧ rec_kind r = k.
Proof.
  unfold releasable. rewrite andb_true_iff, negb_true_iff, bool_decide_eq_true. done.
Qed.

Lemma releasable_false k r :
  releasable k r = false ↔ (rec_kind r = k → rec_released r = true).
Proof.
  unfold releasable. destruct (rec_released r); simpl.
  - naive_solver.
  - rewrite bool_decide_eq_false. naive_solver.
Qed.

(** A release against one kind leaves the records of every other kind. *)
Lemma _mark_released_kind name kind st i r :
  records st !! i = Some r → rec_kind r ≠ kind →
  records (_mark_released name kind st) !! i = Some r.
Proof.
  intros Hi Hk. unfold _mark_released.
  destruct (by_name st !! name) as [entries|]; [|done].
  destruct (scan_entries _ _ _) as [j|] eqn:Hscan; [|done].
  apply scan_entries_Some in Hscan as (r' & Hj & [_ Hr']%releasable_true).
  simpl. rewrite list_lookup_alter_ne; [done|]. intros ->. congruence.
Qed.

Lemma release_loop_first pre kind methods post name method st :
  method ∈ methods → Forall (λ p : ResourceKind * list string, method ∉ p.2) pre →
  release_loop (pre ++ (kind, methods) :: post) name method st
  = _mark_released name kind st.
Proof.
  intros Hin. induction 1 as [|[k ms] pre Hp _ IH]; simpl.
  - by rewrite bool_decide_eq_true_2.
  - by rewrite bool_decide_eq_false_2.
Qed.

(** C6: for an attribute call [name.method(...)], the release is attempted
    against the first kind of [RELEASE_METHODS] (file handle, socket handle,
    process handle, asyncio task, in this order) whose methods contain
    [method], and against no other kind. For [close] that kind is the file
    handle, and no socket-handle record changes. *)
Theorem release_resolves_to_first_kind
    (name method : string) (st : Analyzer) pre kind methods post :
  RELEASE_METHODS = pre ++ (kind, methods) :: post →
  method ∈ methods →
  Forall (λ p : ResourceKind * list string, method ∉ p.2) pre →
  RELEASE_METHODS.*1 = [file_handle; socket_handle; popen_handle; asyncio_task]
  ∧ _handle_release (Attribute (Name name) method) st = _mark_released name kind st
  ∧ (method = "close" →
     kind = file_handle
     ∧ ∀ i r, records st !! i = Some r → rec_kind r = socket_handle →
         records (_handle_release (Attribute (Name name) method) st) !! i = Some r).
Proof.
  intros Htable Hin Hpre. split; [done|].
  assert (_handle_release (Attribute (Name name) method) st
          = _mark_released name kind st) as Hrel.
  { unfold _handle_release. rewrite Htable. by apply release_loop_first. }
  split; [done|]. intros ->.
  assert (kind = file_handle) as ->.
  { destruct pre as [|p pre]; simpl in Htable.
    - by injection Htable as <- _.
    - injection Htable as <- _. apply Forall_cons_1 in Hpre as [Hp _].
      destruct Hp. simpl. by left. }
  split; [done|]. intros i r Hi Hk. rewrite Hrel.
  apply _mark_released_kind; [done|]. by rewrite Hk.
Qed.

Lemma release_resolves_to_first_kind_witness :
  let st := _add_record (Some "s") socket_handle 1 Analyzer_init in
  RELEASE_METHODS.*1 = [file_handle; socket_handle; popen_handle; asyncio_task]
  ∧ _handle_release (Attribute (Name "s") "close") st = _mark_released "s" file_handle st
  ∧ ("close" = "close" →
     file_handle = file_handle
     ∧ ∀ i r, records st !! i = Some r → rec_kind r = socket_handle →
         records (_handle_release (Attribute (Name "s") "close") st) !! i = Some r).
Proof.
  intros st.
  apply (release_resolves_to_first_kind "s" "close" st [] file_handle ["close"]
           [ (socket_handle, ["close"]);
             (popen_handle, ["wait"; "communicate"; "terminate"; "kill"]);
             (asyncio_task, ["cancel"]) ]).
  - reflexivity.
  - by left.
  - constructor.
Defined.

(** C8: a release for a name that owns no unreleased record of the kind,
    among them a name that owns no record at all, returns the analyzer as
    it was; [_mark_released] has no failing path. *)
Theorem release_without_match_changes_nothing
    (st : Analyzer) (name : string) (kind : ResourceKind) :
  store_wf st →
  (∀ r, r ∈ records st → rec_name r = Some name → rec_kind r = kind →
        rec_released r = true) →
  _mark_released name kind st = st.
Proof.
  intros Hwf Hnone. destruct (decide (name = "")) as [->|Hne].
  - specialize (Hwf ""). simpl in Hwf. unfold _mark_released.
    destruct (by_name st !! "") as [entries|]; [|done]. simpl in Hwf. by subst.
  - rewrite _mark_released_first by done.
    rewrite first_releasable_None; [done|].
    intros r Hr Hn. apply releasable_false. by apply Hnone.
Qed.

Lemma release_without_match_changes_nothing_witness :
  let st := _add_record (Some "f") file_handle 1 Analyzer_init in
  _mark_released "g" file_handle st = st ∧ _mark_released "f" socket_handle st = st.
Proof.
  intros st.
  assert (store_wf st) as Hwf by apply _add_record_wf, Analyzer_init_wf.
  split; apply release_without_match_changes_nothing; try exact Hwf.
  - intros r Hr Hn. apply list_elem_of_singleton in Hr. subst r. discriminate Hn.
  - intros r Hr _ Hk. apply list_elem_of_singleton in Hr. subst r. discriminate Hk.
Defined.

Lemma _mark_released_at st N K i r :
  store_wf st → N ≠ "" →
  records st !! i = Some r →
  rec_name r = Some N → rec_kind r = K → rec_released r = false →
  (∀ j r', j < i → records st !! j = Some r' →
           rec_name r' = Some N → rec_kind r' = K → rec_released r' = true) →
  _mark_released N K st = set_store (<[i := mark r]> (records st)) (by_name st) st.
Proof.
  intros Hwf Hne Hi Hn Hk Hr Hfirst.
  rewrite _mark_released_first by done.
  rewrite (first_releasable_at N K (records st) 0 i r); try done.
  - simpl. by rewrite (alter_mark_insert _ _ r).
  - by apply releasable_true.
  - intros j r' Hj Hj' Hn'. apply releasable_false. by apply (Hfirst j).
Qed.

(** C3: on a store whose index agrees with its records, a release of kind
    [K] for the name [N] marks the earliest-created unreleased record of
    kind [K] that [N] owns and changes nothing else. Hence
    [a = open(p); a = open(q); a.close()] ends with the first record
    released and the second one, alone, reported. *)
Theorem release_marks_earliest
    (st : Analyzer) (N : string) (K : ResourceKind) (i : nat) (r : ResourceRecord) :
  store_wf st → N ≠ "" →
  records st !! i = Some r →
  rec_name r = Some N → rec_kind r = K → rec_released r = false →
  (∀ j r', j < i → records st !! j = Some r' →
           rec_name r' = Some N → rec_kind r' = K → rec_released r' = true) →
  _mark_released N K st = set_store (<[i := mark r]> (records st)) (by_name st) st
  ∧ ∃ st', visit reopen_then_close Analyzer_init = Ok st'
      ∧ records st'
        = [ {| rec_name := Some "a"; rec_kind := file_handle; rec_lineno := 1;
               rec_released := true |};
            {| rec_name := Some "a"; rec_kind := file_handle; rec_lineno := 2;
               rec_released := false |} ]
      ∧ unreleased st'
        = [ {| rec_name := Some "a"; rec_kind := file_handle; rec_lineno := 2;
               rec_released := false |} ]
      ∧ report "f.py" st' = ["f.py:2" +:+ tab +:+ "file_handle" +:+ tab].
Proof.
  intros Hwf Hne Hi Hn Hk Hr Hfirst. split.
  - by apply _mark_released_at.
  - eexists. split; [by vm_compute|]. by vm_compute.
Qed.

Lemma release_marks_earliest_witness :
  let st := _add_record (Some "a") file_handle 2
              (_add_record (Some "a") file_handle 1 Analyzer_init) in
  _mark_released "a" file_handle st
  = set_store (<[0 := mark {| rec_name := Some "a"; rec_kind := file_handle;
                              rec_lineno := 1; rec_released := false |}]> (records st))
      (by_name st) st.
Proof.
  intros st.
  refine (proj1 (release_marks_earliest st "a" file_handle 0
    {| rec_name := Some "a"; rec_kind := file_handle; rec_lineno := 1;
       rec_released := false |} _ _ _ _ _ _ _)).
  - apply _add_record_wf, _add_record_wf, Analyzer_init_wf.
  - discriminate.
  - reflexivity.
  - reflexivity.
  - reflexivity.
  - reflexivity.
  - intros j r' Hj. lia.
Defined.

(** ** Calls, assignments and the analysis of a file *)

Lemma target_kind_close module : target_kind (module, "close") = None.
Proof.
  unfold target_kind, TARGET_SIGS. simpl.
  repeat (destruct (decide _) as [[=]|_]; try done).
Qed.

Lemma callee_signature_close al name :
  callee_signature al (Attribute (Name name) "close") ≫= target_kind = None.
Proof.
  simpl. destruct (default _ _) as [module obj].
  destruct (nonempty obj); simpl; apply target_kind_close.
Qed.

Lemma visit_assign_close nid lineno st :
  visit (assign_close_result nid lineno) st = Ok (_mark_released "f" file_handle st).
Proof.
  unfold assign_close_result. simpl.
  rewrite _handle_assignment_unregistered by apply callee_signature_close.
  simpl. rewrite classify_call_unregistered by apply callee_signature_close.
  done.
Qed.

(** C10: [visit_Call] applies the release to every call node, after the
    classification and whatever it decided; for a node marked by an
    assignment or by a with statement the classification does nothing and
    the release is all that happens before the descent. So [x = f.close()]
    creates no record and marks the earliest unreleased file-handle record
    owned by [f] as released: afterwards the record at that position has
    its released flag set, with its owner, kind and line as before, and
    every other record is untouched. *)
Theorem release_applies_to_every_call
    (nid : nat) (lineno : Z) (func : expr) (args keywords : list expr) (st : Analyzer) :
  visit_expr (Call nid lineno func args keywords) st
  = visit_exprs keywords (visit_exprs args (visit_expr func
      (_handle_release func (classify_call nid lineno func st))))
  ∧ (nid ∈ assigned_calls st ∨ nid ∈ safe_calls st →
     visit_expr (Call nid lineno func args keywords) st
     = visit_exprs keywords (visit_exprs args (visit_expr func (_handle_release func st))))
  ∧ visit (assign_close_result nid lineno) st = Ok (_mark_released "f" file_handle st)
  ∧ (∀ i r, store_wf st → records st !! i = Some r →
       rec_name r = Some "f" → rec_kind r = file_handle → rec_released r = false →
       (∀ j r', j < i → records st !! j = Some r' → rec_name r' = Some "f" →
                rec_kind r' = file_handle → rec_released r' = true) →
       ∃ st', visit (assign_close_result nid lineno) st = Ok st'
              ∧ records st'
                = <[i := {| rec_name := Some "f"; rec_kind := file_handle;
                            rec_lineno := rec_lineno r; rec_released := true |}]>
                    (records st)
              ∧ List.length (records st') = List.length (records st)
              ∧ (∃ r', records st' !! i = Some r' ∧ rec_released r' = true)
              ∧ ∀ j, j ≠ i → records st' !! j = records st !! j).
Proof.
  split; [done|]. split; [|split].
  - intros Hexempt. rewrite visit_expr_Call.
    by destruct Hexempt; [rewrite classify_call_assigned|rewrite classify_call_safe].
  - apply visit_assign_close.
  - intros i r Hwf Hi Hn Hk Hr Hfirst. eexists. split; [apply visit_assign_close|].
    rewrite (_mark_released_at st "f" file_handle i r) by done.
    assert (mark r = {| rec_name := Some "f"; rec_kind := file_handle;
                        rec_lineno := rec_lineno r; rec_released := true |}) as ->.
    { unfold mark. by rewrite Hn, Hk. }
    simpl. split; [done|]. split; [by rewrite length_insert|]. split.
    + eexists. split; [apply list_lookup_insert_eq; by eapply lookup_lt_Some|done].
    + intros j Hj. by apply list_lookup_insert_ne.
Qed.

Lemma release_applies_to_every_call_witness :
  let st := _add_record (Some "f") file_handle 1 Analyzer_init in
  ∃ st', visit (assign_close_result 2 2) st = Ok st'
         ∧ records st = [ {| rec_name := Some "f"; rec_kind := file_handle;
                             rec_lineno := 1; rec_released := false |} ]
         ∧ records st' = [ {| rec_name := Some "f"; rec_kind := file_handle;
                              rec_lineno := 1; rec_released := true |} ]
         ∧ report "a.py" st = ["a.py:1" +:+ tab +:+ "file_handle" +:+ tab]
         ∧ report "a.py" st' = [].
Proof.
  intros st.
  destruct (proj2 (proj2 (proj2 (release_applies_to_every_call 2 2
            (Attribute (Name "f") "close") [] [] st))) 0
            {| rec_name := Some "f"; rec_kind := file_handle; rec_lineno := 1;
               rec_released := false |})
    as (st' & Hvisit & Hrecords & _); [..|exists st'].
  7: { split; [done|]. split; [reflexivity|]. split; [exact Hrecords|].
       split; [reflexivity|]. unfold report, unreleased. by rewrite Hrecords. }
  - apply _add_record_wf, Analyzer_init_wf.
  - reflexivity.
  - reflexivity.
  - reflexivity.
  - reflexivity.
  - intros j r' Hj. lia.
Defined.

(** C1: the claim fails on the code. [_handle_assignment] hands the value
    of the assignment to [_call_signature], which reads [call.func] without
    the test that [_call_signature_from_expr] makes; for a value that is
    not a call the traversal ends in [AttributeError], and [analyze], which
    catches [OSError] and [SyntaxError] only, lets it through. *)
Theorem assignment_of_non_call_raises
    (targets : list expr) (target annotation value : expr) (st : Analyzer)
    (path text : string) :
  match value with
  | Call _ _ _ _ _ => True
  | _ =>
      _call_signature_from_expr (aliases st) value = Ok None
      ∧ _call_signature (aliases st) value = Raise AttributeError
      ∧ visit (Assign targets value) st = Raise AttributeError
      ∧ visit (AnnAssign target annotation (Some value)) st = Raise AttributeError
  end
  ∧ visit assign_constant Analyzer_init = Raise AttributeError
  ∧ visit assign_awaited st = Raise AttributeError
  ∧ analyze path (Ok text) (λ _, Ok assign_constant) = Raise AttributeError.
Proof. split; [by destruct value|done]. Qed.

Lemma scan_app parse files1 files2 :
  scan parse (files1 ++ files2)
  = foldl (λ acc f, issues ← acc; found ← analyze f.1 f.2 parse; Ok (issues ++ found))
      (scan parse files1) files2.
Proof. apply foldl_app. Qed.

Lemma analyze_caught path read_text parse :
  read_text = Raise OSError
  ∨ (∃ text, read_text = Ok text ∧ parse text = Raise SyntaxError) →
  analyze path read_text parse = Ok [].
Proof.
  intros [->|(text & -> & Hparse)]; [done|]. unfold analyze. by rewrite Hparse.
Qed.

Lemma scan_skips parse path read_text files1 files2 :
  analyze path read_text parse = Ok [] →
  scan parse (files1 ++ (path, read_text) :: files2) = scan parse (files1 ++ files2).
Proof.
  intros Hskip. rewrite !scan_app. simpl. rewrite Hskip.
  f_equal. destruct (scan parse files1) as [issues|e]; simpl; [|done].
  by rewrite app_nil_r.
Qed.

(** ** One record per call node, and none for a managed call *)

Lemma count_line_app L l1 l2 : count_line L (l1 ++ l2) = count_line L l1 + count_line L l2.
Proof. unfold count_line. by rewrite filter_app, length_app. Qed.

Lemma count_line_submseteq L l1 l2 : l1 ⊆+ l2 → count_line L l1 ≤ count_line L l2.
Proof.
  intros (k & Hk)%submseteq_Permutation. unfold count_line.
  rewrite Hk, filter_app, length_app. lia.
Qed.

Lemma grows_count st st' slots L :
  grows st st' slots →
  count_line L (linenos st') ≤ count_line L (linenos st) + count_line L slots.
Proof.
  intros (added & -> & Hsub). rewrite count_line_app.
  apply Nat.add_le_mono_l. by apply count_line_submseteq.
Qed.

Lemma assigned_state_linenos targets nid lineno kind st :
  linenos (assigned_state targets nid lineno kind st)
  = linenos st ++ replicate
      (if bool_decide (kind = context_cancel) then 1
       else Nat.max 1 (List.length (flat_map _collect_names targets))) lineno.
Proof.
  unfold assigned_state. set (st0 := set_assigned_calls _ st).
  assert (linenos st0 = linenos st) as <- by done.
  case_bool_decide; [by rewrite _add_record_linenos|].
  destruct (flat_map _ _) as [|n names] eqn:E; [by rewrite _add_record_linenos|].
  by rewrite add_records_linenos.
Qed.

(** C2, as the code has it: the records a traversal adds fit the slots of
    the tree, line by line. A call node has one slot; a call that an
    assignment binds has one slot per bound name, and one if no name is
    bound; a call managed by a with item has none. The assignment that
    classifies a call creates one record per bound name (one for a
    cancellable context or when no name is bound) and enters the node in
    [assigned_calls], after which [visit_Call] adds no record for it. *)
Theorem records_fit_slots (tree : node) (st st' : Analyzer) :
  visit tree st = Ok st' →
  (∃ added, linenos st' = linenos st ++ added ∧ added ⊆+ record_slots tree)
  ∧ (∀ L, count_line L (linenos st')
          ≤ count_line L (linenos st) + count_line L (record_slots tree))
  ∧ (∀ targets nid lineno func args keywords kind,
       callee_signature (aliases st) func ≫= target_kind = Some kind →
       ∃ st1, _handle_assignment targets (Call nid lineno func args keywords) st = Ok st1
         ∧ linenos st1
           = linenos st ++ replicate
               (if bool_decide (kind = context_cancel) then 1
                else Nat.max 1 (List.length (flat_map _collect_names targets))) lineno
         ∧ nid ∈ assigned_calls st1
         ∧ classify_call nid lineno func (visit_exprs targets st1) = visit_exprs targets st1
         ∧ ∀ st2, nid ∈ assigned_calls st2 → classify_call nid lineno func st2 = st2)
  ∧ (∀ nid lineno func s,
       ∃ added, linenos (classify_call nid lineno func s) = linenos s ++ added
                ∧ added ⊆+ [lineno]).
Proof.
  intros Hv. pose proof (visit_grows tree st st' Hv) as Hg.
  split; [done|]. split; [intros L; by apply grows_count|]. split.
  - intros targets nid lineno func args keywords kind Hk.
    eexists. split; [by apply _handle_assignment_registered|].
    destruct (assigned_state_spec targets nid lineno kind st) as (_ & _ & _ & Hin).
    split; [apply assigned_state_linenos|]. split; [done|]. split.
    + apply classify_call_assigned.
      by destruct (visit_exprs_tables targets (assigned_state targets nid lineno kind st))
        as (_ & _ & ->).
    + intros st2. apply classify_call_assigned.
  - intros nid lineno func s. apply classify_call_grows.
Qed.

Lemma records_fit_slots_witness :
  (∃ added, linenos (visited reopen_then_close) = linenos Analyzer_init ++ added
            ∧ added ⊆+ record_slots reopen_then_close)
  ∧ count_line 1 (linenos (visited reopen_then_close))
    ≤ count_line 1 (linenos Analyzer_init) + count_line 1 (record_slots reopen_then_close).
Proof.
  destruct (records_fit_slots reopen_then_close Analyzer_init
              (visited reopen_then_close)) as (Hadded & Hcount & _).
  - vm_compute. reflexivity.
  - split; [exact Hadded|exact (Hcount 1%Z)].
Defined.

(** C2 as stated fails: [a = b = open(p)] has one call node, on line 1,
    and the traversal creates two records for it. *)
Lemma fan_out_creates_two_records :
  node_call_lines fan_out_assignment = [1%Z]
  ∧ ∃ st', visit fan_out_assignment Analyzer_init = Ok st'
      ∧ records st'
        = [ {| rec_name := Some "a"; rec_kind := file_handle; rec_lineno := 1;
               rec_released := false |};
            {| rec_name := Some "b"; rec_kind := file_handle; rec_lineno := 1;
               rec_released := false |} ]
      ∧ count_line 1 (linenos st') = 2.
Proof. split; [done|]. eexists. split; [by vm_compute|]. by vm_compute. Qed.

Lemma count_line_absent L l : L ∉ l → count_line L l = 0.
Proof.
  unfold count_line. induction l as [|x l IH]; intros Hn; [done|].
  rewrite filter_cons, decide_False.
  - apply IH. intros ?. apply Hn. by right.
  - intros ->. apply Hn. by left.
Qed.

Lemma visit_new_lines tree st st' L :
  visit tree st = Ok st' → L ∉ record_slots tree →
  count_line L (linenos st') = count_line L (linenos st).
Proof.
  intros (added & -> & Hsub)%visit_grows Hn. rewrite count_line_app.
  rewrite (count_line_absent L added); [lia|].
  intros Hin. apply Hn. by eapply elem_of_submseteq.
Qed.

Lemma visit_init_lines tree final L r :
  visit tree Analyzer_init = Ok final → L ∉ record_slots tree →
  r ∈ unreleased final → rec_lineno r ≠ L.
Proof.
  intros (added & Hl & Hsub)%visit_grows Hn Hr <-. apply Hn.
  eapply elem_of_submseteq; [|done].
  change (linenos Analyzer_init ++ added) with added in Hl. rewrite <- Hl.
  apply list_elem_of_fmap_2. by apply list_elem_of_filter in Hr as [_ ?].
Qed.

(** C4: while a with or async-with statement is visited, a managed call
    that resolves to a registered signature is entered in [safe_calls],
    where [visit_Call] passes it over, and every record the statement adds
    comes from a call below a managed expression, in a binding, or in the
    body, with or without an [as] binding. Over a whole file, a line that
    holds managed calls only appears in no diagnostic. *)
Theorem managed_call_gets_no_record
    (is_async : bool) (items : list withitem) (body : list node) (st st' : Analyzer)
    (item : withitem) (nid : nat) (lineno : Z) (func : expr) (args keywords : list expr) :
  visit (with_node is_async items body) st = Ok st' →
  item ∈ items →
  context_expr item = Call nid lineno func args keywords →
  is_Some (callee_signature (aliases st) func ≫= target_kind) →
  (∃ st1, _mark_safe items st = Ok st1 ∧ records st1 = records st ∧ nid ∈ safe_calls st1
     ∧ ∀ before after, items = before ++ item :: after →
         let st2 := foldl (λ st i, visit_withitem i st) st1 before in
         nid ∈ safe_calls st2
         ∧ classify_call nid lineno func st2 = st2
         ∧ visit_expr (context_expr item) st2
           = visit_exprs keywords (visit_exprs args (visit_expr func
               (_handle_release func st2))))
  ∧ (∃ added, linenos st' = linenos st ++ added
       ∧ added ⊆+ flat_map item_slots items ++ flat_map record_slots body)
  ∧ (∀ L, L ∉ flat_map item_slots items ++ flat_map record_slots body →
       count_line L (linenos st') = count_line L (linenos st))
  ∧ (∀ tree final L r,
       visit tree Analyzer_init = Ok final → L ∉ record_slots tree →
       r ∈ unreleased final → rec_lineno r ≠ L).
Proof.
  intros Hv Hin Hctx Hreg.
  assert (record_slots (with_node is_async items body)
          = flat_map item_slots items ++ flat_map record_slots body) as Hslots
    by (by destruct is_async).
  split; [|split; [|split]].
  - destruct (_mark_safe_spec items st) as (st1 & E & _ & Hr & _ & _ & Hs).
    assert (nid ∈ safe_calls st1) as Hsafe.
    { rewrite Hs. apply elem_of_union_l. by eapply safe_ids_managed. }
    exists st1. repeat split; try done.
    all: assert (same_tables st1 (foldl (λ st i, visit_withitem i st) st1 before))
           as (_ & Hsame & _)
           by (apply foldl_tables, Forall_forall; intros ? _ ?; apply visit_withitem_tables).
    + by rewrite Hsame.
    + apply classify_call_safe. by rewrite Hsame.
    + rewrite Hctx, visit_expr_Call, classify_call_safe; [done|]. by rewrite Hsame.
  - rewrite <- Hslots. by apply visit_grows.
  - intros L HL. rewrite <- Hslots in HL. by eapply visit_new_lines.
  - intros tree final L r. apply visit_init_lines.
Qed.

Lemma managed_call_gets_no_record_witness :
  ∃ added, linenos (visited (With with_open_as_f [Generic []]))
           = linenos Analyzer_init ++ added
    ∧ added ⊆+ [].
Proof.
  refine (proj1 (proj2 (managed_call_gets_no_record false with_open_as_f [Generic []]
    Analyzer_init (visited (With with_open_as_f [Generic []]))
    {| context_expr := Call 1 1 (Name "open") [Name "p"] [];
       optional_vars := Some (Name "f") |}
    1 1%Z (Name "open") [Name "p"] [] _ _ _ _))).
  - vm_compute. reflexivity.
  - left.
  - reflexivity.
  - exists file_handle. vm_compute. reflexivity.
Defined.

(** ** The cancel function of a cancellable context *)

Lemma classify_call_records nid lineno func st :
  ∃ new, records (classify_call nid lineno func st) = records st ++ new.
Proof.
  unfold classify_call.
  repeat first [case_bool_decide|destruct (callee_signature _ _)|destruct (target_kind _)];
    try (exists []; by rewrite app_nil_r).
  eexists. apply _add_record_records.
Qed.

(** A released record stays as it is. *)
Lemma _mark_released_released name kind st i r :
  records st !! i = Some r → rec_released r = true →
  records (_mark_released name kind st) !! i = Some r.
Proof.
  intros Hi Hr. unfold _mark_released.
  destruct (by_name st !! name) as [entries|]; [|done].
  destruct (scan_entries _ _ _) as [j|] eqn:Hscan; [|done].
  apply scan_entries_Some in Hscan as (r' & Hj & [Hr' _]%releasable_true).
  simpl. rewrite list_lookup_alter_ne; [done|]. intros ->. congruence.
Qed.

(** A release for one name leaves the records of every other owner. *)
Lemma _mark_released_name name kind st i r :
  store_wf st → records st !! i = Some r → rec_name r ≠ Some name →
  records (_mark_released name kind st) !! i = Some r.
Proof.
  intros Hwf Hi Hn. destruct (decide (name = "")) as [->|Hne].
  - specialize (Hwf ""). simpl in Hwf. unfold _mark_released.
    destruct (by_name st !! "") as [entries|]; [|done]. simpl in Hwf. by subst.
  - rewrite _mark_released_first by done.
    destruct (first_releasable _ _ _ _) as [j|] eqn:Hfirst; [|done].
    apply first_releasable_spec in Hfirst as (r' & _ & Hj & Hn' & _).
    rewrite Nat.sub_0_r in Hj. simpl.
    rewrite list_lookup_alter_ne; [done|]. intros ->. congruence.
Qed.

Lemma unreleased_reported path st i r :
  records st !! i = Some r → rec_released r = false →
  diagnostic path r ∈ report path st.
Proof.
  intros Hi Hr. apply list_elem_of_fmap_2, list_elem_of_filter.
  split; [done|]. by eapply list_elem_of_lookup_2.
Qed.

(** C5, as the code has it: an assignment of a cancellable context to two
    or more names creates one record, owned by the second name. A later bare
    call of that name releases the earliest unreleased cancellable-context
    record the name owns, which is this record when no earlier one is left;
    and as long as the name is not called as a bare function the record
    stays unreleased and is reported. *)
Theorem cancel_function_owns_the_record
    (st : Analyzer) (targets : list expr) (nid : nat) (lineno : Z) (func : expr)
    (args keywords : list expr) (first second : string) (rest : list string) :
  callee_signature (aliases st) func ≫= target_kind = Some context_cancel →
  flat_map _collect_names targets = first :: second :: rest →
  let r := {| rec_name := Some second; rec_kind := context_cancel;
              rec_lineno := lineno; rec_released := false |} in
  ∃ st1, _handle_assignment targets (Call nid lineno func args keywords) st = Ok st1
    ∧ records st1 = records st ++ [r]
    ∧ (store_wf st → store_wf st1)
    ∧ (∀ st2 i r0 nid' lineno' args' keywords',
         store_wf st2 → second ≠ "" → records st2 !! i = Some r0 →
         rec_name r0 = Some second → rec_kind r0 = context_cancel →
         rec_released r0 = false →
         (∀ j r', j < i → records st2 !! j = Some r' → rec_name r' = Some second →
                  rec_kind r' = context_cancel → rec_released r' = true) →
         records (visit_expr (Call nid' lineno' (Name second) args' keywords') st2) !! i
         = Some (mark r0))
    ∧ (∀ tree st2 st3 i,
         store_wf st2 → records st2 !! i = Some r → visit tree st2 = Ok st3 →
         second ∉ node_bare_calls tree →
         store_wf st3 ∧ records st3 !! i = Some r
         ∧ ∀ path, diagnostic path r ∈ report path st3).
Proof.
  intros Hk Hnames r.
  pose proof (_handle_assignment_registered targets nid lineno func args keywords
                context_cancel st Hk) as Hassign.
  eexists. split; [exact Hassign|]. split; [|split; [|split]].
  - unfold assigned_state. rewrite Hnames, bool_decide_eq_true_2 by done.
    by rewrite _add_record_records.
  - intros Hwf. eapply (_handle_assignment_inv store_wf); [| |exact Hassign|exact Hwf].
    + intros. by apply _add_record_wf.
    + intros s s' Hr Hb Hs x. rewrite Hr, Hb. apply Hs.
  - intros st2 i r0 nid' lineno' args' keywords' Hwf Hne Hi Hn0 Hk0 Hr0 Hfirst.
    rewrite visit_expr_Call.
    set (st3 := classify_call nid' lineno' (Name second) st2).
    assert (store_wf st3) as Hwf3.
    { apply classify_call_inv; [|done]. intros. by apply _add_record_wf. }
    destruct (classify_call_records nid' lineno' (Name second) st2) as [new Hnew].
    fold st3 in Hnew.
    pose proof (lookup_lt_Some _ _ _ Hi) as Hlt.
    assert (_handle_release (Name second) st3
            = set_store (<[i := mark r0]> (records st3)) (by_name st3) st3) as Hrel.
    { apply _mark_released_at; try done.
      - rewrite Hnew. by apply lookup_app_l_Some.
      - intros j r' Hj. rewrite Hnew, lookup_app_l by lia. by apply Hfirst. }
    rewrite Hrel.
    apply (visit_exprs_inv (λ s, records s !! i = Some (mark r0))
             (flat_map bare_calls keywords')); [| |done|].
    { intros ???? Hs. rewrite _add_record_records. by apply lookup_app_l_Some. }
    { intros ??? _ Hs. by apply _mark_released_released. }
    apply (visit_exprs_inv (λ s, records s !! i = Some (mark r0))
             (flat_map bare_calls args')); [| |done|].
    { intros ???? Hs. rewrite _add_record_records. by apply lookup_app_l_Some. }
    { intros ??? _ Hs. by apply _mark_released_released. }
    simpl. apply list_lookup_insert_eq. rewrite Hnew, length_app. lia.
  - intros tree st2 st3 i Hwf Hi Hv Hnot.
    assert (store_wf st3 ∧ records st3 !! i = Some r) as [Hwf3 Hi3].
    { apply (visit_inv (λ s, store_wf s ∧ records s !! i = Some r)
               (node_bare_calls tree) ) with (n := tree) (st := st2); try done.
      - intros ???? [Hs Hr]. split; [by apply _add_record_wf|].
        rewrite _add_record_records. by apply lookup_app_l_Some.
      - intros n k s Hc [Hs Hr]. split; [by apply _mark_released_wf|].
        destruct (decide (k = context_cancel)) as [->|Hkind].
        + apply _mark_released_name; try done. simpl. intros [= ->]. by apply Hnot, Hc.
        + apply _mark_released_kind; [done|]. simpl. congruence.
      - intros s s' Hr Hb [Hs Hrec]. split; [|by rewrite Hr].
        intros x. rewrite Hr, Hb. apply Hs. }
    repeat split; try done. intros path. by eapply unreleased_reported.
Qed.

Lemma cancel_function_owns_the_record_witness :
  ∃ st1, _handle_assignment [Tuple [Name "ctx"; Name "cancel"]]
           (Call 1 1 (Attribute (Name "context") "WithCancel") [Name "p"] [])
           Analyzer_init = Ok st1
    ∧ records st1
      = [ {| rec_name := Some "cancel"; rec_kind := context_cancel; rec_lineno := 1;
             rec_released := false |} ].
Proof.
  destruct (cancel_function_owns_the_record Analyzer_init
    [Tuple [Name "ctx"; Name "cancel"]] 1 1%Z (Attribute (Name "context") "WithCancel")
    [Name "p"] [] "ctx" "cancel" []) as (st1 & Hassign & Hrecords & _).
  - vm_compute. reflexivity.
  - reflexivity.
  - exists st1. split; [exact Hassign|exact Hrecords].
Defined.

(** C5 as stated fails: after two such assignments to the same name, the one
    later call [cancel()] releases the record of the first assignment; the
    record of the second stays unreleased and is the one reported. *)
Lemma later_cancel_releases_the_earlier_record :
  ∃ st', visit two_contexts_one_cancel Analyzer_init = Ok st'
    ∧ records st'
      = [ {| rec_name := Some "cancel"; rec_kind := context_cancel; rec_lineno := 1;
             rec_released := true |};
          {| rec_name := Some "cancel"; rec_kind := context_cancel; rec_lineno := 2;
             rec_released := false |} ]
    ∧ report "f.py" st' = ["f.py:2" +:+ tab +:+ "context_cancel" +:+ tab].
Proof. eexists. split; [by vm_compute|]. by vm_compute. Qed.

(** ** The steps of a traversal *)

Lemma release_loop_first_kind table name method st :
  release_loop table name method st
  = match first_kind table method with
    | Some kind => _mark_released name kind st
    | None => st
    end.
Proof.
  induction table as [|[kind methods] rest IH]; simpl; [done|].
  by case_bool_decide.
Qed.

Lemma first_kind_not_socket method kind :
  first_kind RELEASE_METHODS method = Some kind →
  kind ≠ socket_handle ∧ kind ≠ context_cancel.
Proof.
  simpl. repeat case_bool_decide; intros [= <-]; done.
Qed.

(** A property of the analyzer that every single step of a traversal
    keeps is kept by the traversal. The steps are: a record is added, a
    release is made for an owner and kind the tree asks for, an import binds
    a name, a node is entered in one of the two sets. *)
Section traversal_steps.
Variable I : Analyzer → Prop.
Variable events : list (string * ResourceKind).
Hypothesis I_add : ∀ name kind lineno st, I st → I (_add_record name kind lineno st).
Hypothesis I_release : ∀ n k st,
  (n, k) ∈ events → k ≠ socket_handle → I st → I (_mark_released n k st).
Hypothesis I_alias : ∀ key module obj st,
  I st → I (set_aliases (<[key := (Some module, obj)]> (aliases st)) st).
Hypothesis I_safe : ∀ nid st, I st → I (set_safe_calls ({[nid]} ∪ safe_calls st) st).
Hypothesis I_assigned : ∀ nid st,
  I st → I (set_assigned_calls ({[nid]} ∪ assigned_calls st) st).

Lemma _handle_release_step func st :
  call_release func ⊆ events → I st → I (_handle_release func st).
Proof.
  intros Hc HI. destruct func as [id|[] attr| | | | |]; unfold _handle_release; try done.
  - apply I_release; [|done..]. apply Hc. by left.
  - rewrite release_loop_first_kind. unfold call_release in Hc.
    destruct (first_kind RELEASE_METHODS attr) as [kind|] eqn:Hk; [|done].
    apply I_release; [|by apply (first_kind_not_socket attr)|done].
    apply Hc. by left.
Qed.

Lemma visit_exprs_step_all es :
  Forall (λ e, release_events e ⊆ events → ∀ st, I st → I (visit_expr e st)) es →
  flat_map release_events es ⊆ events → ∀ st, I st → I (visit_exprs es st).
Proof.
  induction 1 as [|e es He _ IH]; intros Hc st HI; [done|].
  rewrite visit_exprs_cons. simpl in Hc.
  apply IH; [by eapply app_subseteq_r|]. apply He; [by eapply app_subseteq_l|done].
Qed.

Lemma visit_expr_step e : release_events e ⊆ events → ∀ st, I st → I (visit_expr e st).
Proof.
  induction e as [id|value attr IH|nid lineno func args keywords IHf IHa IHk
                 |elts IH|elts IH|value IH|children IH] using expr_ind;
    intros Hc st HI.
  - done.
  - by apply IH.
  - rewrite visit_expr_Call. simpl in Hc.
    pose proof (app_subseteq_l _ _ _ Hc) as Hhead.
    apply app_subseteq_r in Hc. pose proof (app_subseteq_l _ _ _ Hc) as Hfunc.
    apply app_subseteq_r in Hc.
    apply visit_exprs_step_all; [done|by eapply app_subseteq_r|].
    apply visit_exprs_step_all; [done|by eapply app_subseteq_l|].
    apply IHf; [done|]. apply _handle_release_step; [done|].
    by apply classify_call_inv.
  - by apply visit_exprs_step_all.
  - by apply visit_exprs_step_all.
  - simpl in *. apply IH; [by eapply app_subseteq_r|].
    apply app_subseteq_l in Hc. destruct value; try done.
    apply I_release; [|done..]. apply Hc. by left.
  - by apply visit_exprs_step_all.
Qed.

Lemma visit_exprs_step es :
  flat_map release_events es ⊆ events → ∀ st, I st → I (visit_exprs es st).
Proof.
  apply visit_exprs_step_all, Forall_forall. intros e _. apply visit_expr_step.
Qed.

Lemma _handle_assignment_step targets value st st1 :
  _handle_assignment targets value st = Ok st1 → I st → I st1.
Proof.
  intros Hassign HI.
  destruct value as [| |nid lineno func args keywords| | | |]; try done.
  destruct (callee_signature (aliases st) func ≫= target_kind) as [kind|] eqn:Hk.
  - rewrite (_handle_assignment_registered _ _ _ _ _ _ kind) in Hassign by done.
    injection Hassign as <-. unfold assigned_state.
    set (st0 := set_assigned_calls _ st).
    assert (I st0) as HI0 by (by apply I_assigned).
    case_bool_decide; [by apply I_add|].
    destruct (flat_map _ _) as [|n names]; [by apply I_add|].
    unfold add_records. generalize (n :: names) as l. intros l.
    revert HI0. generalize st0. induction l as [|x l IH]; intros s Hs; [done|].
    simpl. by apply IH, I_add.
  - rewrite _handle_assignment_unregistered in Hassign by done. by injection Hassign as <-.
Qed.

Lemma _mark_safe_step items st st1 : _mark_safe items st = Ok st1 → I st → I st1.
Proof.
  rewrite _mark_safe_fold. intros [= <-]. revert st.
  induction items as [|item items IH]; intros st HI; [done|].
  simpl. apply IH. unfold mark_safe_item.
  destruct (context_expr item); try done.
  destruct (_ ≫= _); [by apply I_safe|done].
Qed.

Lemma visit_Import_step names st : I st → I (visit_Import names st).
Proof.
  unfold visit_Import. revert st. induction names as [|a names IH]; intros st HI; [done|].
  simpl. by apply IH, I_alias.
Qed.

Lemma visit_ImportFrom_step module names st : I st → I (visit_ImportFrom module names st).
Proof.
  unfold visit_ImportFrom. revert st.
  induction names as [|a names IH]; intros st HI; [done|].
  simpl. apply IH. case_bool_decide; [done|by apply I_alias].
Qed.

Lemma visit_withitems_step items :
  flat_map item_release_events items ⊆ events →
  ∀ st, I st → I (foldl (λ st i, visit_withitem i st) st items).
Proof.
  induction items as [|item items IH]; intros Hc st HI; [done|].
  simpl in *. apply IH; [by eapply app_subseteq_r|].
  apply app_subseteq_l in Hc. unfold visit_withitem, item_release_events in *.
  pose proof (visit_expr_step (context_expr item) (app_subseteq_l _ _ _ Hc) st HI) as H1.
  destruct (optional_vars item) as [v|]; [|done].
  apply visit_expr_step; [by eapply app_subseteq_r|done].
Qed.

Lemma visit_nodes_step ns :
  Forall (λ n, node_release_events n ⊆ events →
               ∀ st st', visit n st = Ok st' → I st → I st') ns →
  flat_map node_release_events ns ⊆ events →
  ∀ st st', visit_nodes ns st = Ok st' → I st → I st'.
Proof.
  induction 1 as [|n ns Hn _ IH]; intros Hc st st' Hv HI.
  - by injection Hv as <-.
  - rewrite visit_nodes_cons in Hv. apply bind_Ok in Hv as (st1 & H1 & H2).
    simpl in Hc. eapply IH; [by eapply app_subseteq_r|done|].
    eapply Hn; [by eapply app_subseteq_l|done..].
Qed.

Lemma visit_step n :
  node_release_events n ⊆ events → ∀ st st', visit n st = Ok st' → I st → I st'.
Proof.
  assert (∀ items body, Forall (λ n, node_release_events n ⊆ events →
            ∀ st st', visit n st = Ok st' → I st → I st') body →
          node_release_events (With items body) ⊆ events →
          ∀ st st', visit (With items body) st = Ok st' → I st → I st') as HWith.
  { intros items body IH Hc st st' Hv HI. rewrite visit_With in Hv.
    apply bind_Ok in Hv as (st1 & Hsafe & Hbody). simpl in Hc.
    eapply visit_nodes_step; [done|by eapply app_subseteq_r|done|].
    apply visit_withitems_step; [by eapply app_subseteq_l|].
    by eapply _mark_safe_step. }
  induction n as [e|names|module names|items body IH|items body IH|targets value
                 |target annotation value|children IH] using node_ind;
    intros Hc st st' Hv HI.
  - injection Hv as <-. by apply visit_expr_step.
  - injection Hv as <-. by apply visit_Import_step.
  - injection Hv as <-. by apply visit_ImportFrom_step.
  - by eapply HWith.
  - rewrite visit_AsyncWith in Hv. by eapply HWith.
  - simpl in Hv, Hc. apply bind_Ok in Hv as (st1 & Hassign & Hv). injection Hv as <-.
    apply visit_expr_step; [by eapply app_subseteq_r|].
    apply visit_exprs_step; [by eapply app_subseteq_l|].
    by eapply _handle_assignment_step.
  - simpl in Hv, Hc. apply bind_Ok in Hv as (st1 & Hassign & Hv).
    assert (I st1) as HI1.
    { destruct value; [by eapply _handle_assignment_step|by injection Hassign as <-]. }
    assert (I (visit_expr annotation (visit_expr target st1))) as HI2.
    { apply visit_expr_step; [by eapply app_subseteq_l, app_subseteq_r|].
      apply visit_expr_step; [by eapply app_subseteq_l|done]. }
    destruct value as [v|]; injection Hv as <-; [|done].
    apply visit_expr_step; [|done]. by eapply app_subseteq_r, app_subseteq_r.
  - rewrite visit_Generic in Hv. by eapply visit_nodes_step.
Qed.
End traversal_steps.

(** ** What a traversal does to the records it finds *)

Lemma mark_same_record r : same_record r (mark r).
Proof. by repeat split. Qed.

Lemma same_record_refl r : same_record r r.
Proof. by repeat split. Qed.

Lemma same_record_trans r1 r2 r3 :
  same_record r1 r2 → same_record r2 r3 → same_record r1 r3.
Proof.
  intros (? & ? & ? & ?) (? & ? & ? & ?). repeat split; try congruence. auto.
Qed.

Lemma _mark_released_same_record name kind st i r :
  records st !! i = Some r →
  ∃ r', records (_mark_released name kind st) !! i = Some r' ∧ same_record r r'.
Proof.
  intros Hi. unfold _mark_released.
  destruct (by_name st !! name) as [entries|];
    [|exists r; split; [done|apply same_record_refl]].
  destruct (scan_entries _ _ _) as [j|];
    [|exists r; split; [done|apply same_record_refl]].
  simpl. destruct (decide (j = i)) as [->|Hne].
  - exists (mark r). rewrite list_lookup_alter_eq, Hi. split; [done|apply mark_same_record].
  - exists r. rewrite list_lookup_alter_ne by done. split; [done|apply same_record_refl].
Qed.

(** X1: a traversal never drops or reorders a record and never changes the
    owner, the kind or the line of one; a record it finds released stays
    released. *)
Theorem records_are_kept (tree : node) (st st' : Analyzer) :
  visit tree st = Ok st' →
  List.length (records st) ≤ List.length (records st')
  ∧ ∀ i r, records st !! i = Some r →
      ∃ r', records st' !! i = Some r' ∧ same_record r r'.
Proof.
  intros Hv. split.
  - destruct (visit_grows tree st st' Hv) as (added & Hl & _).
    apply (f_equal List.length) in Hl. unfold linenos in Hl.
    rewrite length_app, !length_fmap in Hl. lia.
  - apply (visit_step
      (λ s, ∀ i r, records st !! i = Some r →
                   ∃ r', records s !! i = Some r' ∧ same_record r r')
      (node_release_events tree)) with (n := tree) (st := st); try done.
    + intros name kind lineno s Hs i r Hi. destruct (Hs i r Hi) as (r' & Hr' & Hsame).
      exists r'. split; [|done]. rewrite _add_record_records. by apply lookup_app_l_Some.
    + intros n k s _ _ Hs i r Hi. destruct (Hs i r Hi) as (r' & Hr' & Hsame).
      destruct (_mark_released_same_record n k s i r' Hr') as (r'' & Hr'' & Hsame').
      exists r''. split; [done|by eapply same_record_trans].
    + intros i r Hi. exists r. split; [done|apply same_record_refl].
Qed.

Lemma records_are_kept_witness :
  let st := visited reopen_then_close in
  let st' := visited_from st reopen_then_close in
  records st
  = [ {| rec_name := Some "a"; rec_kind := file_handle; rec_lineno := 1;
         rec_released := true |};
      {| rec_name := Some "a"; rec_kind := file_handle; rec_lineno := 2;
         rec_released := false |} ]
  ∧ List.length (records st) ≤ List.length (records st')
  ∧ (∃ r', records st' !! 0 = Some r'
           ∧ same_record {| rec_name := Some "a"; rec_kind := file_handle;
                            rec_lineno := 1; rec_released := true |} r')
  ∧ (∃ r', records st' !! 1 = Some r'
           ∧ same_record {| rec_name := Some "a"; rec_kind := file_handle;
                            rec_lineno := 2; rec_released := false |} r').
Proof.
  intros st st'.
  assert (visit reopen_then_close st = Ok st') as Hvisit by (vm_compute; reflexivity).
  split; [reflexivity|]. split; [|split].
  - exact (proj1 (records_are_kept reopen_then_close st st' Hvisit)).
  - apply (proj2 (records_are_kept reopen_then_close st st' Hvisit) 0). reflexivity.
  - apply (proj2 (records_are_kept reopen_then_close st st' Hvisit) 1). reflexivity.
Defined.

(** X2: a record stays exactly as it is, unreleased if it was, through
    any traversal of a tree that holds no release for its owner and kind:
    no call [owner.method(...)] whose method resolves to the kind, no bare
    call [owner(...)] for a cancellable context, no [await owner] for a
    task. The record of [f = open(p)] is thus reported after [f.read()]. *)
Theorem record_kept_without_matching_release
    (tree : node) (st st' : Analyzer) (i : nat) (r : ResourceRecord) (owner : string) :
  store_wf st →
  visit tree st = Ok st' →
  records st !! i = Some r →
  rec_name r = Some owner →
  (owner, rec_kind r) ∉ node_release_events tree →
  records st' !! i = Some r
  ∧ (rec_released r = false → ∀ path, diagnostic path r ∈ report path st').
Proof.
  intros Hwf Hv Hi Hn Hnot.
  assert (store_wf st' ∧ records st' !! i = Some r) as [_ Hi'].
  { apply (visit_step (λ s, store_wf s ∧ records s !! i = Some r)
             (node_release_events tree)) with (n := tree) (st := st); try done.
    - intros ???? [Hs Hr]. split; [by apply _add_record_wf|].
      rewrite _add_record_records. by apply lookup_app_l_Some.
    - intros n k s Hev _ [Hs Hr]. split; [by apply _mark_released_wf|].
      destruct (decide (n = owner)) as [->|Hne].
      + apply _mark_released_kind; [done|]. intros Hk. apply Hnot. by rewrite Hk.
      + apply _mark_released_name; [done..|]. congruence. }
  split; [done|]. intros Hr path. by eapply unreleased_reported.
Qed.

Lemma record_kept_without_matching_release_witness :
  let r := {| rec_name := Some "f"; rec_kind := file_handle; rec_lineno := 1;
              rec_released := false |} in
  let st := _add_record (Some "f") file_handle 1 Analyzer_init in
  records st !! 0 = Some r ∧ diagnostic "f.py" r ∈ report "f.py" st.
Proof.
  intros r st.
  destruct (record_kept_without_matching_release
    (Expr (Call 2 2 (Attribute (Name "f") "read") [] [])) st st 0 r "f") as [Hr Hrep].
  - apply _add_record_wf, Analyzer_init_wf.
  - vm_compute. reflexivity.
  - reflexivity.
  - reflexivity.
  - vm_compute. intros H. inversion H.
  - split; [exact Hr|]. apply Hrep. reflexivity.
Defined.

Lemma _mark_released_elem name kind st r :
  r ∈ records (_mark_released name kind st) →
  r ∈ records st ∨ ∃ r0, r0 ∈ records st ∧ rec_kind r0 = kind ∧ r = mark r0.
Proof.
  unfold _mark_released.
  destruct (by_name st !! name) as [entries|]; [|by left].
  destruct (scan_entries _ _ _) as [j|] eqn:Hscan; [|by left].
  apply scan_entries_Some in Hscan as (r0 & Hj & [_ Hk]%releasable_true).
  simpl. intros (i & Hi)%list_elem_of_lookup_1.
  destruct (decide (j = i)) as [->|Hne].
  - rewrite list_lookup_alter_eq, Hj in Hi. injection Hi as <-.
    right. exists r0. split; [by eapply list_elem_of_lookup_2|done].
  - rewrite list_lookup_alter_ne in Hi by done. left. by eapply list_elem_of_lookup_2.
Qed.

Lemma in_unreleased_reported path st r :
  r ∈ records st → rec_released r = false → diagnostic path r ∈ report path st.
Proof.
  intros Hin Hr. apply list_elem_of_fmap_2, list_elem_of_filter. by split.
Qed.

(** X3: no traversal releases a socket-handle record. [close], the one
    method [RELEASE_METHODS] gives the socket handle, is taken by the file
    handle before it, and neither a bare call nor an await releases that
    kind. Every socket-handle record of an analysis is therefore reported,
    as in [s = socket.socket(); s.close()]. *)
Theorem socket_records_are_never_released (tree : node) (st st' : Analyzer) :
  visit tree st = Ok st' →
  (∀ i r, records st !! i = Some r → rec_kind r = socket_handle →
          records st' !! i = Some r)
  ∧ ((∀ r, r ∈ records st → rec_kind r = socket_handle → rec_released r = false) →
     ∀ r, r ∈ records st' → rec_kind r = socket_handle →
          rec_released r = false ∧ ∀ path, diagnostic path r ∈ report path st').
Proof.
  intros Hv. split.
  - intros i r Hi Hk.
    apply (visit_step (λ s, records s !! i = Some r) (node_release_events tree))
      with (n := tree) (st := st); try done.
    + intros ???? Hs. rewrite _add_record_records. by apply lookup_app_l_Some.
    + intros n k s _ Hne Hs. apply _mark_released_kind; [done|]. by rewrite Hk.
  - intros Hst.
    assert (∀ r, r ∈ records st' → rec_kind r = socket_handle → rec_released r = false)
      as Hall.
    { apply (visit_step
        (λ s, ∀ r, r ∈ records s → rec_kind r = socket_handle → rec_released r = false)
        (node_release_events tree)) with (n := tree) (st := st); try done.
      - intros name kind lineno s Hs r. rewrite _add_record_records.
        intros [Hin|Hnew%list_elem_of_singleton]%elem_of_app; [by apply Hs|by subst r].
      - intros n k s _ Hne Hs r Hin.
        apply _mark_released_elem in Hin as [Hin|(r0 & _ & Hk0 & ->)]; [by apply Hs|].
        simpl. by rewrite Hk0. }
    intros r Hin Hk. split; [by apply Hall|].
    intros path. apply in_unreleased_reported; [done|by apply Hall].
Qed.

Lemma socket_records_are_never_released_witness :
  let r := {| rec_name := Some "s"; rec_kind := socket_handle; rec_lineno := 2;
              rec_released := false |} in
  diagnostic "f.py" r ∈ report "f.py" (visited socket_closed).
Proof.
  intros r.
  destruct (proj2 (socket_records_are_never_released socket_closed Analyzer_init
                     (visited socket_closed) eq_refl)
              (λ r0 (H : r0 ∈ []), False_ind _ (not_elem_of_nil r0 H)) r) as [_ Hrep].
  - vm_compute. apply list_elem_of_here.
  - reflexivity.
  - exact (Hrep "f.py").
Defined.

(** ** Acquisitions without an owner *)

Lemma kept_add i r name kind lineno s :
  store_wf s ∧ records s !! i = Some r →
  store_wf (_add_record name kind lineno s)
  ∧ records (_add_record name kind lineno s) !! i = Some r.
Proof.
  intros [Hs Hr]. split; [by apply _add_record_wf|].
  rewrite _add_record_records. by apply lookup_app_l_Some.
Qed.

Lemma anonymous_kept_release i r n k s :
  nonempty (rec_name r) = None →
  store_wf s ∧ records s !! i = Some r →
  store_wf (_mark_released n k s) ∧ records (_mark_released n k s) !! i = Some r.
Proof.
  intros Hanon [Hs Hr]. split; [by apply _mark_released_wf|].
  destruct (decide (n = "")) as [->|Hne].
  - specialize (Hs ""). simpl in Hs. unfold _mark_released.
    destruct (by_name s !! "") as [entries|]; [|done]. simpl in Hs. by subst.
  - apply _mark_released_name; [done..|]. intros Hn. rewrite Hn in Hanon.
    apply nonempty_None in Hanon as [|[= ->]]; done.
Qed.

Lemma anonymous_kept tree st st' i r :
  store_wf st → visit tree st = Ok st' →
  records st !! i = Some r → nonempty (rec_name r) = None →
  store_wf st' ∧ records st' !! i = Some r.
Proof.
  intros Hwf Hv Hi Hanon.
  apply (visit_step (λ s, store_wf s ∧ records s !! i = Some r)
           (node_release_events tree)) with (n := tree) (st := st); try done.
  - intros. by apply kept_add.
  - intros. by apply anonymous_kept_release.
Qed.

(** X4: a record without an owner is out of reach of every release: it
    comes out of any traversal as it went in, and if it was unreleased it is
    reported. *)
Theorem anonymous_record_is_never_released
    (tree : node) (st st' : Analyzer) (i : nat) (r : ResourceRecord) :
  store_wf st →
  visit tree st = Ok st' →
  records st !! i = Some r →
  rec_name r = None →
  records st' !! i = Some r
  ∧ (rec_released r = false → ∀ path, diagnostic path r ∈ report path st').
Proof.
  intros Hwf Hv Hi Hn.
  destruct (anonymous_kept tree st st' i r) as [_ Hi']; try done.
  { by rewrite Hn. }
  split; [done|]. intros Hr path. by eapply unreleased_reported.
Qed.

Lemma anonymous_record_is_never_released_witness :
  let st := _add_record None file_handle 1 Analyzer_init in
  records (visited_from st reopen_then_close) !! 0 = Some (anonymous file_handle 1).
Proof.
  intros st.
  refine (proj1 (anonymous_record_is_never_released reopen_then_close st
                   (visited_from st reopen_then_close) 0 (anonymous file_handle 1) _ _ _ _)).
  - apply _add_record_wf, Analyzer_init_wf.
  - vm_compute. reflexivity.
  - reflexivity.
  - reflexivity.
Defined.

(** X5: an assignment of a registered call whose targets bind no name,
    such as an attribute or a subscript, creates one record without an
    owner; whatever is traversed afterwards, a call [self.f.close()]
    included, that record is reported. *)
Theorem unbound_assignment_is_always_reported
    (targets : list expr) (nid : nat) (lineno : Z) (func : expr)
    (args keywords : list expr) (kind : ResourceKind) (st : Analyzer) :
  store_wf st →
  callee_signature (aliases st) func ≫= target_kind = Some kind →
  flat_map _collect_names targets = [] →
  ∃ st1, _handle_assignment targets (Call nid lineno func args keywords) st = Ok st1
    ∧ records st1 = records st ++ [anonymous kind lineno]
    ∧ by_name st1 = by_name st
    ∧ ∀ tree st', visit tree st1 = Ok st' →
        records st' !! List.length (records st) = Some (anonymous kind lineno)
        ∧ ∀ path, diagnostic path (anonymous kind lineno) ∈ report path st'.
Proof.
  intros Hwf Hk Hnames.
  pose proof (_handle_assignment_registered targets nid lineno func args keywords
                kind st Hk) as Hassign.
  set (st1 := _add_record None kind lineno
                (set_assigned_calls ({[nid]} ∪ assigned_calls st) st)).
  assert (assigned_state targets nid lineno kind st = st1) as Hst1.
  { unfold assigned_state. rewrite Hnames. by case_bool_decide. }
  rewrite Hst1 in Hassign. exists st1. split; [exact Hassign|].
  assert (records st1 = records st ++ [anonymous kind lineno]) as Hrecords
    by (unfold st1; by rewrite _add_record_records).
  split; [done|]. split; [done|].
  intros tree st' Hv.
  destruct (anonymous_kept tree st1 st' (List.length (records st))
              (anonymous kind lineno)) as [_ Hi]; try done.
  - by apply _add_record_wf.
  - rewrite Hrecords. by apply list_lookup_middle.
  - split; [done|]. intros path. by eapply unreleased_reported.
Qed.

Lemma unbound_assignment_is_always_reported_witness :
  ∃ st1, _handle_assignment assign_to_attribute (Call 1 1 (Name "open") [Name "p"] [])
           Analyzer_init = Ok st1
    ∧ records st1 = [anonymous file_handle 1].
Proof.
  destruct (unbound_assignment_is_always_reported assign_to_attribute 1 1%Z
    (Name "open") [Name "p"] [] file_handle Analyzer_init)
    as (st1 & Hassign & Hrecords & _).
  - apply Analyzer_init_wf.
  - vm_compute. reflexivity.
  - reflexivity.
  - exists st1. split; [exact Hassign|exact Hrecords].
Defined.

Lemma discarded_call_kept
    (nid : nat) (lineno : Z) (func : expr) (args keywords : list expr)
    (kind : ResourceKind) (st : Analyzer) :
  store_wf st →
  nid ∉ assigned_calls st → nid ∉ safe_calls st →
  callee_signature (aliases st) func ≫= target_kind = Some kind →
  let st1 := visit_expr (Call nid lineno func args keywords) st in
  classify_call nid lineno func st = _add_record None kind lineno st
  ∧ records st1 !! List.length (records st) = Some (anonymous kind lineno)
  ∧ ∀ tree st', visit tree st1 = Ok st' →
      records st' !! List.length (records st) = Some (anonymous kind lineno)
      ∧ ∀ path, diagnostic path (anonymous kind lineno) ∈ report path st'.
Proof.
  intros Hwf Hna Hns Hk st1.
  assert (classify_call nid lineno func st = _add_record None kind lineno st) as Hc.
  { unfold classify_call. rewrite bool_decide_eq_false_2 by done.
    destruct (callee_signature _ _) as [sig|]; [|done]. simpl in Hk. rewrite Hk.
    by rewrite bool_decide_eq_false_2. }
  set (i := List.length (records st)).
  set (I := λ s, store_wf s ∧ records s !! i = Some (anonymous kind lineno)).
  assert (∀ name k l s, I s → I (_add_record name k l s)) as I_add
    by (intros; by apply kept_add).
  assert (∀ n k s, I s → I (_mark_released n k s)) as I_release
    by (intros; by apply anonymous_kept_release).
  assert (I st1) as [Hwf1 Hi1].
  { unfold st1. rewrite visit_expr_Call, Hc.
    apply (visit_exprs_step I (flat_map release_events keywords)); auto.
    apply (visit_exprs_step I (flat_map release_events args)); auto.
    apply (visit_expr_step I (release_events func)); auto.
    apply (_handle_release_step I (call_release func)); auto.
    split; [by apply _add_record_wf|].
    rewrite _add_record_records. by apply list_lookup_middle. }
  split; [done|]. split; [done|]. intros tree st' Hv.
  destruct (anonymous_kept tree st1 st' i (anonymous kind lineno)) as [_ Hi];
    try done.
  split; [done|]. intros path. by eapply unreleased_reported.
Qed.

(** X6: a registered call that neither an assignment nor a with statement
    has marked gets one record without an owner when it is visited, and
    that record is reported whatever its arguments hold and whatever is
    traversed afterwards. *)
Theorem discarded_acquisition_is_always_reported
    (nid : nat) (lineno : Z) (func : expr) (args keywords : list expr)
    (kind : ResourceKind) (st : Analyzer) :
  store_wf st →
  nid ∉ assigned_calls st → nid ∉ safe_calls st →
  callee_signature (aliases st) func ≫= target_kind = Some kind →
  let st1 := visit_expr (Call nid lineno func args keywords) st in
  classify_call nid lineno func st = _add_record None kind lineno st
  ∧ records st1 !! List.length (records st) = Some (anonymous kind lineno)
  ∧ ∀ tree st', visit tree st1 = Ok st' →
      records st' !! List.length (records st) = Some (anonymous kind lineno)
      ∧ ∀ path, diagnostic path (anonymous kind lineno) ∈ report path st'.
Proof.
  intros Hwf Hna Hns Hk. by apply discarded_call_kept.
Qed.

Lemma discarded_acquisition_is_always_reported_witness :
  records (visit_expr (Call 1 1 (Name "open") [Name "p"] []) Analyzer_init) !! 0
  = Some (anonymous file_handle 1).
Proof.
  refine (proj1 (proj2 (discarded_acquisition_is_always_reported 1 1%Z (Name "open")
                          [Name "p"] [] file_handle Analyzer_init _ _ _ _))).
  - apply Analyzer_init_wf.
  - apply not_elem_of_empty.
  - apply not_elem_of_empty.
  - vm_compute. reflexivity.
Defined.

(** ** The two sets of marked nodes *)

(** X7: a traversal only ever adds to [safe_calls] and [assigned_calls];
    a call node that is in one of them stays passed over by [visit_Call]
    after any further traversal. *)
Theorem marked_nodes_stay_marked (tree : node) (st st' : Analyzer) :
  visit tree st = Ok st' →
  safe_calls st ⊆ safe_calls st'
  ∧ assigned_calls st ⊆ assigned_calls st'
  ∧ ∀ nid lineno func,
      nid ∈ safe_calls st ∨ nid ∈ assigned_calls st →
      classify_call nid lineno func st' = st'.
Proof.
  intros Hv.
  assert (safe_calls st ⊆ safe_calls st' ∧ assigned_calls st ⊆ assigned_calls st')
    as [Hsafe Hassigned].
  { apply (visit_step
      (λ s, safe_calls st ⊆ safe_calls s ∧ assigned_calls st ⊆ assigned_calls s)
      (node_release_events tree)) with (n := tree) (st := st); try done.
    - intros name kind lineno s [H1 H2].
      by destruct (_add_record_tables name kind lineno s) as (_ & -> & ->).
    - intros n k s _ _ [H1 H2].
      by destruct (_mark_released_tables n k s) as (_ & -> & ->).
    - intros nid s [H1 H2]. split; [|done]. simpl.
      intros x Hx. apply elem_of_union_r. by apply H1.
    - intros nid s [H1 H2]. split; [done|]. simpl.
      intros x Hx. apply elem_of_union_r. by apply H2. }
  split; [done|]. split; [done|]. intros nid lineno func [Hin|Hin].
  - apply classify_call_safe. by apply Hsafe.
  - apply classify_call_assigned. by apply Hassigned.
Qed.

Lemma marked_nodes_stay_marked_witness :
  let st := visited (With with_open_as_f [Generic []]) in
  classify_call 1 7 (Name "open") (visited_from st reopen_then_close)
  = visited_from st reopen_then_close.
Proof.
  intros st.
  refine (proj2 (proj2 (marked_nodes_stay_marked reopen_then_close st
                          (visited_from st reopen_then_close) _)) 1 7%Z (Name "open") _).
  - vm_compute. reflexivity.
  - left. vm_compute. reflexivity.
Defined.

(** ** Imported names *)

Lemma target_kind_with_origin module symbol :
  target_kind (Some module, symbol) ≠ Some file_handle.
Proof.
  unfold target_kind, TARGET_SIGS. simpl.
  repeat (destruct (decide _) as [[=]|_]; try done).
Qed.

(** X8: every entry of the alias table comes from an import and carries
    a module. A bare call of an imported name therefore resolves to a
    signature with an origin, never to one of the origin-less entries of
    [TARGET_SIGS]: after [from os import popen] the call [popen(...)] is
    looked up as [(os, popen)], and no imported name is classified as a
    file handle. *)
Theorem imported_name_resolves_with_origin (tree : node) (st st' : Analyzer) :
  visit tree st = Ok st' →
  (∀ key module obj, aliases st !! key = Some (module, obj) → is_Some module) →
  (∀ key module obj, aliases st' !! key = Some (module, obj) → is_Some module)
  ∧ ∀ id, is_Some (aliases st' !! id) →
      ∃ module symbol,
        callee_signature (aliases st') (Name id) = Some (Some module, symbol)
        ∧ target_kind (Some module, symbol) ≠ Some file_handle.
Proof.
  intros Hv Hst.
  assert (∀ key module obj, aliases st' !! key = Some (module, obj) → is_Some module)
    as Hst'.
  { apply (visit_step (λ s, ∀ key module obj,
             aliases s !! key = Some (module, obj) → is_Some module)
             (node_release_events tree)) with (n := tree) (st := st); try done.
    - intros name kind lineno s Hs.
      by destruct (_add_record_tables name kind lineno s) as (-> & _ & _).
    - intros n k s _ _ Hs. by destruct (_mark_released_tables n k s) as (-> & _ & _).
    - intros key module obj s Hs key' module' obj'. simpl.
      destruct (decide (key = key')) as [->|Hne].
      + rewrite lookup_insert_eq. by intros [= <- <-].
      + rewrite lookup_insert_ne by done. apply Hs. }
  split; [done|]. intros id [[module obj] Hid].
  destruct (Hst' id module obj Hid) as [m ->].
  simpl. rewrite Hid. simpl.
  destruct (nonempty obj) as [o|]; eexists _, _; (split; [done|]);
    apply target_kind_with_origin.
Qed.

Lemma imported_name_resolves_with_origin_witness :
  ∃ module symbol,
    callee_signature (aliases (visited from_os_import_popen)) (Name "popen")
    = Some (Some module, symbol)
    ∧ target_kind (Some module, symbol) ≠ Some file_handle.
Proof.
  refine (proj2 (imported_name_resolves_with_origin from_os_import_popen Analyzer_init
                   (visited from_os_import_popen) _ _) "popen" _).
  - vm_compute. reflexivity.
  - intros key module obj H. simpl in H. rewrite lookup_empty in H. discriminate H.
  - vm_compute. eexists. reflexivity.
Defined.

(** ** The name index *)

Lemma positions_elem n rs off i :
  i ∈ positions n rs off
  ↔ off ≤ i ∧ ∃ r, rs !! (i - off) = Some r ∧ rec_name r = Some n.
Proof.
  revert off. induction rs as [|r0 rs IH]; intros off; simpl.
  - split; [by intros ?%elem_of_nil|by intros (_ & ? & ? & _)].
  - assert (i ∈ positions n rs (S off)
            ↔ S off ≤ i ∧ ∃ r, (r0 :: rs) !! (i - off) = Some r ∧ rec_name r = Some n)
      as Hrest.
    { rewrite IH. split; intros (Hle & r & Hr & Hn); (split; [lia|]); exists r;
        (split; [|done]).
      - by replace (i - off) with (S (i - S off)) by lia.
      - by replace (i - off) with (S (i - S off)) in Hr by lia. }
    destruct (decide (rec_name r0 = Some n)) as [Hn0|Hn0].
    + rewrite elem_of_cons, Hrest. split.
      * intros [->|(Hle & Hr)]; [|split; [lia|done]].
        split; [done|]. exists r0. by rewrite Nat.sub_diag.
      * intros (Hle & r & Hr & Hn). destruct (decide (i = off)) as [->|Hne]; [by left|].
        right. split; [lia|]. by exists r.
    + rewrite Hrest. split.
      * intros (Hle & Hr). split; [lia|done].
      * intros (Hle & r & Hr & Hn). split; [|by exists r].
        destruct (decide (i = off)) as [->|Hne]; [|lia].
        rewrite Nat.sub_diag in Hr. simpl in Hr. congruence.
Qed.

Lemma positions_sorted n rs off : StronglySorted lt (positions n rs off).
Proof.
  revert off. induction rs as [|r0 rs IH]; intros off; simpl; [constructor|].
  destruct (decide _); [|apply IH]. constructor; [apply IH|].
  apply Forall_forall. intros i (Hle & _)%positions_elem. lia.
Qed.

(** X9: after the analysis of a file, [by_name] holds under each name
    the positions of exactly the records that name owns, in the order the
    records were created; it holds nothing under the empty name and no
    position without a record. *)
Theorem index_agrees_with_records (tree : node) (st' : Analyzer) :
  visit tree Analyzer_init = Ok st' →
  ∀ n, StronglySorted lt (default [] (by_name st' !! n))
       ∧ ∀ i, i ∈ default [] (by_name st' !! n)
              ↔ n ≠ "" ∧ ∃ r, records st' !! i = Some r ∧ rec_name r = Some n.
Proof.
  intros Hv n. pose proof (analysis_wf tree st' Hv n) as Hn. rewrite Hn.
  destruct (decide (n = "")) as [->|Hne].
  - split; [constructor|]. intros i. split; [by intros ?%elem_of_nil|by intros [? _]].
  - split; [apply positions_sorted|]. intros i. rewrite positions_elem, Nat.sub_0_r.
    split; [intros (_ & Hr); by split|intros (_ & Hr); split; [lia|done]].
Qed.

Lemma index_agrees_with_records_witness :
  0 ∈ default [] (by_name (visited reopen_then_close) !! "a")
  ↔ "a" ≠ "" ∧ ∃ r, records (visited reopen_then_close) !! 0 = Some r
                     ∧ rec_name r = Some "a".
Proof.
  refine (proj2 (index_agrees_with_records reopen_then_close
                   (visited reopen_then_close) _ "a") 0).
  vm_compute. reflexivity.
Defined.

(** ** What the imports bind *)

Lemma visit_Import_app names1 names2 st :
  visit_Import (names1 ++ names2) st = visit_Import names2 (visit_Import names1 st).
Proof. apply fold_left_app. Qed.

Lemma visit_ImportFrom_app module names1 names2 st :
  visit_ImportFrom module (names1 ++ names2) st
  = visit_ImportFrom module names2 (visit_ImportFrom module names1 st).
Proof. apply fold_left_app. Qed.

Lemma visit_Import_other names key st :
  Forall (λ b, alias_key b ≠ key) names →
  aliases (visit_Import names st) !! key = aliases st !! key.
Proof.
  unfold visit_Import. intros Hall. revert st.
  induction Hall as [|b names Hb _ IH]; intros st; [done|].
  simpl. rewrite IH. simpl. by rewrite lookup_insert_ne.
Qed.

Lemma visit_ImportFrom_other module names key st :
  Forall (λ b, alias_name b = "*" ∨ alias_key b ≠ key) names →
  aliases (visit_ImportFrom module names st) !! key = aliases st !! key.
Proof.
  unfold visit_ImportFrom. intros Hall. revert st.
  induction Hall as [|b names Hb _ IH]; intros st; [done|].
  simpl. rewrite IH. case_bool_decide; [done|].
  destruct Hb as [|Hb]; [done|]. simpl. by rewrite lookup_insert_ne.
Qed.

Lemma visit_Import_tables names st :
  records (visit_Import names st) = records st
  ∧ by_name (visit_Import names st) = by_name st
  ∧ safe_calls (visit_Import names st) = safe_calls st
  ∧ assigned_calls (visit_Import names st) = assigned_calls st.
Proof.
  unfold visit_Import. revert st. induction names as [|a names IH]; intros st; [done|].
  simpl. by destruct (IH (set_aliases
    (<[or_str (alias_asname a) (alias_name a) := (Some (alias_name a), None)]> (aliases st)) st))
    as (-> & -> & -> & ->).
Qed.

(** X10: [import m as L] (or [import m], which binds [m] itself) makes
    the local name stand for the module: unless a later alias of the same
    statement binds the name again, the table maps it to [(m, None)], a call
    [L.attr(...)] whose method is not one of the four bare callables resolves
    to [(m, attr)], and a bare call [L(...)] to [(m, L)]. The statement
    touches no other name and nothing but the alias table. *)
Theorem import_binds_the_module
    (names before after : list alias) (a : alias) (st : Analyzer) :
  names = before ++ a :: after →
  Forall (λ b, alias_key b ≠ alias_key a) after →
  let st' := visit_Import names st in
  aliases st' !! alias_key a = Some (Some (alias_name a), None)
  ∧ (∀ attr, attr ∉ bare_callables →
       callee_signature (aliases st') (Attribute (Name (alias_key a)) attr)
       = Some (Some (alias_name a), attr))
  ∧ callee_signature (aliases st') (Name (alias_key a))
    = Some (Some (alias_name a), alias_key a)
  ∧ (∀ key, Forall (λ b, alias_key b ≠ key) names →
       aliases st' !! key = aliases st !! key)
  ∧ records st' = records st ∧ by_name st' = by_name st
  ∧ safe_calls st' = safe_calls st ∧ assigned_calls st' = assigned_calls st.
Proof.
  intros -> Hafter st'.
  assert (aliases st' !! alias_key a = Some (Some (alias_name a), None)) as Hkey.
  { unfold st'. rewrite visit_Import_app.
    change (visit_Import (a :: after) (visit_Import before st))
      with (visit_Import after (set_aliases
              (<[alias_key a := (Some (alias_name a), None)]>
                 (aliases (visit_Import before st))) (visit_Import before st))).
    rewrite visit_Import_other by done. simpl. by rewrite lookup_insert_eq. }
  split; [done|]. split; [|split; [|split]].
  - intros attr Hattr. simpl. rewrite Hkey. simpl.
    by rewrite bool_decide_eq_false_2.
  - simpl. by rewrite Hkey.
  - intros key. apply visit_Import_other.
  - apply visit_Import_tables.
Qed.

Lemma import_binds_the_module_witness :
  let st' := visit_Import [{| alias_name := "socket"; alias_asname := Some "so" |}]
               Analyzer_init in
  callee_signature (aliases st') (Attribute (Name "so") "socket")
  = Some (Some "socket", "socket").
Proof.
  intros st'.
  refine (proj1 (proj2 (import_binds_the_module
    [{| alias_name := "socket"; alias_asname := Some "so" |}] []
    [] {| alias_name := "socket"; alias_asname := Some "so" |} Analyzer_init _ _))
    "socket" _).
  - reflexivity.
  - constructor.
  - vm_compute. intros H. inversion H as [|? ? ? H1]; subst.
    inversion H1 as [|? ? ? H2]; subst. inversion H2 as [|? ? ? H3]; subst.
    inversion H3 as [|? ? ? H4]; subst. inversion H4.
Defined.

(** X11: [from m import s as L] makes the local name stand for the
    symbol: unless a later alias of the statement binds the name again, the
    table maps it to [(m, s)], with the empty module for a relative import,
    and a bare call [L(...)] resolves to [(m, s)]. A call [L.attr(...)] whose
    method is not a bare callable resolves to [(m, attr)], and to [(s, attr)]
    when the import is relative; when the method is one of [open],
    [connect], [Popen] and [popen] the import plays no part and the call
    resolves to the method alone, without an origin. A star import binds
    nothing: a statement made of stars alone leaves the analyzer as it
    was. *)
Theorem from_import_binds_the_symbol
    (module : option string) (names before after : list alias) (a : alias)
    (st : Analyzer) :
  names = before ++ a :: after →
  alias_name a ≠ "*" → alias_name a ≠ "" →
  Forall (λ b, alias_name b = "*" ∨ alias_key b ≠ alias_key a) after →
  let st' := visit_ImportFrom module names st in
  aliases st' !! alias_key a = Some (Some (or_str module ""), Some (alias_name a))
  ∧ callee_signature (aliases st') (Name (alias_key a))
    = Some (Some (or_str module ""), alias_name a)
  ∧ (∀ attr, attr ∉ bare_callables →
       callee_signature (aliases st') (Attribute (Name (alias_key a)) attr)
       = Some (Some (if bool_decide (or_str module "" = "") then alias_name a
                     else or_str module ""), attr))
  ∧ (∀ attr, attr ∈ bare_callables →
       callee_signature (aliases st') (Attribute (Name (alias_key a)) attr)
       = Some (None, attr))
  ∧ (∀ key, Forall (λ b, alias_name b = "*" ∨ alias_key b ≠ key) names →
       aliases st' !! key = aliases st !! key)
  ∧ (∀ stars s, Forall (λ b, alias_name b = "*") stars →
       visit_ImportFrom module stars s = s).
Proof.
  intros -> Hstar Hname Hafter st'.
  assert (aliases st' !! alias_key a
          = Some (Some (or_str module ""), Some (alias_name a))) as Hkey.
  { unfold st'. rewrite visit_ImportFrom_app.
    set (s0 := visit_ImportFrom module before st).
    assert (visit_ImportFrom module (a :: after) s0
            = visit_ImportFrom module after (set_aliases
                (<[alias_key a := (Some (or_str module ""), Some (alias_name a))]>
                   (aliases s0)) s0)) as ->.
    { unfold visit_ImportFrom. simpl. by rewrite bool_decide_eq_false_2. }
    rewrite visit_ImportFrom_other by done. simpl. by rewrite lookup_insert_eq. }
  assert (nonempty (Some (alias_name a)) = Some (alias_name a)) as Hnonempty.
  { simpl. by rewrite bool_decide_eq_false_2. }
  split; [done|]. split; [|split; [|split; [|split]]].
  - simpl. rewrite Hkey. simpl. by rewrite bool_decide_eq_false_2.
  - intros attr Hattr. simpl. rewrite Hkey. simpl.
    rewrite bool_decide_eq_false_2 by done.
    rewrite (bool_decide_eq_false_2 (alias_name a = "")) by done.
    unfold or_else. simpl. by case_bool_decide.
  - intros attr Hattr. simpl. rewrite Hkey. simpl.
    by rewrite bool_decide_eq_true_2.
  - intros key. apply visit_ImportFrom_other.
  - intros stars s Hall. unfold visit_ImportFrom.
    induction Hall as [|b stars Hb _ IH]; [done|].
    simpl. by rewrite bool_decide_eq_true_2.
Qed.

Lemma from_import_binds_the_symbol_witness :
  let st' := visit_ImportFrom (Some "os")
               [{| alias_name := "path"; alias_asname := Some "p" |}] Analyzer_init in
  let st'' := visit_ImportFrom None
                [{| alias_name := "*"; alias_asname := None |};
                 {| alias_name := "utils"; alias_asname := None |}] Analyzer_init in
  (callee_signature (aliases st') (Name "p") = Some (Some "os", "path")
   ∧ callee_signature (aliases st') (Attribute (Name "p") "join") = Some (Some "os", "join")
   ∧ callee_signature (aliases st') (Attribute (Name "p") "open") = Some (None, "open"))
  ∧ callee_signature (aliases st'') (Name "utils") = Some (Some "", "utils")
  ∧ callee_signature (aliases st'') (Attribute (Name "utils") "load")
    = Some (Some "utils", "load")
  ∧ callee_signature (aliases st'') (Attribute (Name "utils") "connect")
    = Some (None, "connect").
Proof.
  intros st' st''.
  assert ("join" ∉ bare_callables ∧ "load" ∉ bare_callables) as [Hjoin Hload].
  { split; apply (bool_decide_unpack _); reflexivity. }
  assert ("open" ∈ bare_callables ∧ "connect" ∈ bare_callables) as [Hopen Hconnect].
  { split; apply (bool_decide_unpack _); reflexivity. }
  split.
  - destruct (from_import_binds_the_symbol (Some "os")
      [{| alias_name := "path"; alias_asname := Some "p" |}] [] []
      {| alias_name := "path"; alias_asname := Some "p" |} Analyzer_init)
      as (_ & Hbare & Hattr & Hcallable & _);
      [reflexivity|discriminate|discriminate|constructor|].
    split; [exact Hbare|]. split; [exact (Hattr "join" Hjoin)|exact (Hcallable "open" Hopen)].
  - destruct (from_import_binds_the_symbol None
      [{| alias_name := "*"; alias_asname := None |};
       {| alias_name := "utils"; alias_asname := None |}]
      [{| alias_name := "*"; alias_asname := None |}] []
      {| alias_name := "utils"; alias_asname := None |} Analyzer_init)
      as (_ & Hbare & Hattr & Hcallable & _);
      [reflexivity|discriminate|discriminate|constructor|].
    split; [exact Hbare|].
    split; [exact (Hattr "load" Hload)|exact (Hcallable "connect" Hconnect)].
Defined.

(** X12: a call of a method named [open], [connect], [Popen] or [popen]
    is taken for an acquisition whatever its receiver is and whatever the
    alias table holds, as in [db.connect()] or [self.open()]: it resolves to
    the origin-less signature of that name, and unless an assignment or a
    with statement has marked the node, visiting it adds a record without an
    owner that is reported whatever follows. Any other method on a receiver
    that is not a plain name resolves to nothing. *)
Theorem bare_callable_method_is_always_an_acquisition
    (nid : nat) (lineno : Z) (base : expr) (attr : string) (args keywords : list expr)
    (st : Analyzer) :
  store_wf st →
  nid ∉ assigned_calls st → nid ∉ safe_calls st →
  attr ∈ bare_callables →
  (∃ kind,
     callee_signature (aliases st) (Attribute base attr) = Some (None, attr)
     ∧ target_kind (None, attr) = Some kind
     ∧ let st1 := visit_expr (Call nid lineno (Attribute base attr) args keywords) st in
       records st1 !! List.length (records st) = Some (anonymous kind lineno)
       ∧ ∀ tree st', visit tree st1 = Ok st' →
           ∀ path, diagnostic path (anonymous kind lineno) ∈ report path st')
  ∧ (∀ al other receiver, other ∉ bare_callables → (∀ id, receiver ≠ Name id) →
       callee_signature al (Attribute receiver other) = None).
Proof.
  intros Hwf Hna Hns Hin. split.
  - assert (callee_signature (aliases st) (Attribute base attr) = Some (None, attr))
      as Hsig.
    { simpl. destruct base as [id| | | | | |]; try by rewrite bool_decide_eq_true_2.
      destruct (default _ _). by rewrite bool_decide_eq_true_2. }
    assert (∃ kind, target_kind (None, attr) = Some kind) as [kind Hkind].
    { unfold bare_callables in Hin.
      repeat (apply elem_of_cons in Hin as [->|Hin]; [by eexists|]).
      by apply elem_of_nil in Hin. }
    exists kind. split; [done|]. split; [done|].
    destruct (discarded_call_kept nid lineno (Attribute base attr) args keywords kind st)
      as (_ & Hi & Hlater); try done.
    { by rewrite Hsig. }
    split; [done|]. intros tree st' Hv. by apply (Hlater tree st').
  - intros al other receiver Hnot Hrecv. simpl.
    destruct receiver as [id| | | | | |]; try by rewrite bool_decide_eq_false_2.
    by destruct (Hrecv id).
Qed.

Lemma bare_callable_method_is_always_an_acquisition_witness :
  records (visit_expr (Call 1 4 (Attribute (Name "db") "connect") [] []) Analyzer_init) !! 0
  = Some (anonymous socket_handle 4).
Proof.
  destruct (bare_callable_method_is_always_an_acquisition 1 4%Z (Name "db") "connect"
              [] [] Analyzer_init) as [(kind & _ & Hkind & Hi & _) _].
  - apply Analyzer_init_wf.
  - apply not_elem_of_empty.
  - apply not_elem_of_empty.
  - unfold bare_callables. right. left.
  - injection Hkind as <-. exact Hi.
Defined.

(** ** How many diagnostics *)

Lemma unreleased_alter_mark (rs : list ResourceRecord) j r :
  rs !! j = Some r → rec_released r = false →
  S (List.length (filter (λ r, rec_released r = false) (alter mark j rs)))
  = List.length (filter (λ r, rec_released r = false) rs).
Proof.
  revert j. induction rs as [|r0 rs IH]; intros [|j] Hj Hr; try done.
  - injection Hj as ->. change (alter mark 0 (r :: rs)) with (mark r :: rs).
    rewrite filter_cons_False by done. by rewrite filter_cons_True.
  - change (alter mark (S j) (r0 :: rs)) with (r0 :: alter mark j rs).
    rewrite !filter_cons. destruct (decide _); simpl; by rewrite (IH j).
Qed.

Lemma _mark_released_count name kind st :
  List.length (unreleased (_mark_released name kind st)) = List.length (unreleased st)
  ∨ S (List.length (unreleased (_mark_released name kind st)))
    = List.length (unreleased st).
Proof.
  unfold _mark_released. destruct (by_name st !! name) as [entries|]; [|by left].
  destruct (scan_entries _ _ _) as [j|] eqn:Hscan; [|by left].
  apply scan_entries_Some in Hscan as (r & Hj & [Hr _]%releasable_true).
  right. by apply (unreleased_alter_mark _ j r).
Qed.

Lemma _add_record_unreleased name kind lineno st :
  unreleased (_add_record name kind lineno st)
  = unreleased st ++ [{| rec_name := name; rec_kind := kind; rec_lineno := lineno;
                         rec_released := false |}].
Proof.
  unfold unreleased. rewrite _add_record_records, filter_app. f_equal.
Qed.

(** X13: each record added means one more diagnostic and each release
    one diagnostic fewer or none; over a traversal the diagnostics grow by
    no more than the tree has slots for records. *)
Theorem diagnostics_are_bounded_by_slots
    (tree : node) (st st' : Analyzer) (path : string) :
  visit tree st = Ok st' →
  List.length (report path st')
  ≤ List.length (report path st) + List.length (record_slots tree)
  ∧ (∀ s owner kind lineno,
       List.length (report path (_add_record owner kind lineno s))
       = S (List.length (report path s)))
  ∧ (∀ s name kind,
       List.length (report path (_mark_released name kind s))
       = List.length (report path s)
       ∨ S (List.length (report path (_mark_released name kind s)))
         = List.length (report path s)).
Proof.
  intros Hv. unfold report. split; [|split].
  - rewrite !length_fmap.
    assert (List.length (unreleased st') + List.length (records st)
            ≤ List.length (unreleased st) + List.length (records st')) as Hinv.
    { apply (visit_step
        (λ s, List.length (unreleased s) + List.length (records st)
              ≤ List.length (unreleased st) + List.length (records s))
        (node_release_events tree)) with (n := tree) (st := st); try done.
      - intros name kind lineno s Hs.
        rewrite _add_record_unreleased, _add_record_records, !length_app. simpl. lia.
      - intros n k s _ _ Hs.
        assert (List.length (records (_mark_released n k s)) = List.length (records s))
          as ->.
        { pose proof (_mark_released_linenos n k s) as Hl.
          apply (f_equal List.length) in Hl. unfold linenos in Hl.
          by rewrite !length_fmap in Hl. }
        destruct (_mark_released_count n k s); lia. }
    destruct (visit_grows tree st st' Hv) as (added & Hl & Hsub).
    apply (f_equal List.length) in Hl. unfold linenos in Hl.
    rewrite length_app, !length_fmap in Hl.
    apply submseteq_length in Hsub. lia.
  - intros s owner kind lineno.
    rewrite !length_fmap, _add_record_unreleased, length_app. simpl. lia.
  - intros s name kind. rewrite !length_fmap. apply _mark_released_count.
Qed.

Lemma diagnostics_are_bounded_by_slots_witness :
  List.length (report "f.py" (visited reopen_then_close))
  ≤ List.length (report "f.py" Analyzer_init) + List.length (record_slots reopen_then_close).
Proof.
  refine (proj1 (diagnostics_are_bounded_by_slots reopen_then_close Analyzer_init
                   (visited reopen_then_close) "f.py" _)).
  vm_compute. reflexivity.
Defined.

(** X14: an acquisition bound to a name and then the release that
    matches it leave the diagnostics as they were, provided the name held no
    unreleased record of the kind before: the release finds the record just
    added. This holds for the method calls [RELEASE_METHODS] resolves to the
    kind, for the bare call of the name of a cancellable context, and for
    the await of the name of a task. *)
Theorem acquire_then_release_is_clean
    (owner : string) (kind : ResourceKind) (lineno : Z) (st : Analyzer) :
  store_wf st → owner ≠ "" →
  (∀ r, r ∈ records st → rec_name r = Some owner → rec_kind r = kind →
        rec_released r = true) →
  let st1 := _add_record (Some owner) kind lineno st in
  unreleased (_mark_released owner kind st1) = unreleased st
  ∧ (∀ path, report path (_mark_released owner kind st1) = report path st)
  ∧ (∀ method, first_kind RELEASE_METHODS method = Some kind →
       unreleased (_handle_release (Attribute (Name owner) method) st1) = unreleased st)
  ∧ (kind = context_cancel →
       unreleased (_handle_release (Name owner) st1) = unreleased st)
  ∧ (kind = asyncio_task →
       unreleased (visit_expr (Await (Name owner)) st1) = unreleased st).
Proof.
  intros Hwf Hne Hnone st1.
  set (r := {| rec_name := Some owner; rec_kind := kind; rec_lineno := lineno;
               rec_released := false |}).
  assert (records st1 = records st ++ [r]) as Hrecords by apply _add_record_records.
  assert (unreleased (_mark_released owner kind st1) = unreleased st) as Hclean.
  { rewrite (_mark_released_at st1 owner kind (List.length (records st)) r); try done.
    - unfold unreleased. simpl. rewrite Hrecords.
      replace (List.length (records st)) with (List.length (records st) + 0) by lia.
      rewrite insert_app_r. simpl. by rewrite filter_app, app_nil_r.
    - by apply _add_record_wf.
    - rewrite Hrecords. by apply list_lookup_middle.
    - intros j r' Hj. rewrite Hrecords, lookup_app_l by done.
      intros Hr'. apply Hnone. by eapply list_elem_of_lookup_2. }
  split; [done|]. split; [|split; [|split]].
  - intros path. unfold report. by rewrite Hclean.
  - intros method Hm. unfold _handle_release.
    by rewrite release_loop_first_kind, Hm.
  - by intros ->.
  - by intros ->.
Qed.

Lemma acquire_then_release_is_clean_witness :
  unreleased (_mark_released "f" file_handle
                (_add_record (Some "f") file_handle 1 Analyzer_init))
  = unreleased Analyzer_init.
Proof.
  refine (proj1 (acquire_then_release_is_clean "f" file_handle 1 Analyzer_init _ _ _)).
  - apply Analyzer_init_wf.
  - discriminate.
  - intros r Hr. inversion Hr.
Defined.

(** ** When a traversal faults *)

Lemma visit_nodes_outcome ns :
  Forall (λ n, ∀ st,
     match visit n st with
     | Ok _ => assigns_calls_only n = true
     | Raise e => e = AttributeError ∧ assigns_calls_only n = false
     end) ns →
  ∀ st,
    match visit_nodes ns st with
    | Ok _ => forallb assigns_calls_only ns = true
    | Raise e => e = AttributeError ∧ forallb assigns_calls_only ns = false
    end.
Proof.
  induction 1 as [|n ns Hn _ IH]; intros st; [done|].
  rewrite visit_nodes_cons. specialize (Hn st). simpl.
  destruct (visit n st) as [st1|e]; simpl.
  - rewrite Hn. simpl. apply IH.
  - destruct Hn as [-> ->]. done.
Qed.

(** X15: the fault of an assignment of something other than a call is
    not confined to where it stands: a tree that holds such an assignment
    anywhere, plain or annotated, at the top or inside the body of a with
    statement or of any other compound statement, is never traversed to the
    end. Every traversal of it, from any state, ends in an exception, and
    [analyze] gives no report for a file parsed to it. *)
Theorem traversal_faults_on_non_call_assignment (tree : node) :
  assigns_calls_only tree = false →
  (∀ st, ∃ e, visit tree st = Raise e)
  ∧ (∀ st st', visit tree st ≠ Ok st')
  ∧ ∀ path text parse, parse text = Ok tree →
      ∃ e, analyze path (Ok text) parse = Raise e.
Proof.
  intros Hbad.
  assert (∀ tree st,
    match visit tree st with
    | Ok _ => assigns_calls_only tree = true
    | Raise e => e = AttributeError ∧ assigns_calls_only tree = false
    end) as Hvisit.
  { clear. intros tree.
    assert (∀ items body, Forall (λ n, ∀ st,
              match visit n st with
              | Ok _ => assigns_calls_only n = true
              | Raise e => e = AttributeError ∧ assigns_calls_only n = false
              end) body →
            ∀ st,
              match visit (With items body) st with
              | Ok _ => forallb assigns_calls_only body = true
              | Raise e => e = AttributeError ∧ forallb assigns_calls_only body = false
              end) as HWith.
    { intros items body IH st. rewrite visit_With, _mark_safe_fold. simpl.
      by apply visit_nodes_outcome. }
    induction tree as [e|names|module names|items body IH|items body IH|targets value
                      |target annotation value|children IH] using node_ind;
      intros st; try done.
    - by apply HWith.
    - rewrite visit_AsyncWith. by apply HWith.
    - destruct value as [| |nid lineno func args keywords| | | |]; try done.
      simpl.
      destruct (callee_signature (aliases st) func ≫= target_kind) as [kind|] eqn:Hk.
      + by rewrite (_handle_assignment_registered _ _ _ _ _ _ kind).
      + by rewrite _handle_assignment_unregistered.
    - destruct value as [[| |nid lineno func args keywords| | | |]|]; try done.
      simpl.
      destruct (callee_signature (aliases st) func ≫= target_kind) as [kind|] eqn:Hk.
      + by rewrite (_handle_assignment_registered _ _ _ _ _ _ kind).
      + by rewrite _handle_assignment_unregistered.
    - rewrite visit_Generic. by apply visit_nodes_outcome. }
  assert (∀ st, ∃ e, visit tree st = Raise e) as Hraise.
  { intros st. specialize (Hvisit tree st).
    destruct (visit tree st) as [st'|e]; [congruence|by exists e]. }
  split; [done|]. split.
  - intros st st' Hv. destruct (Hraise st) as [e He]. congruence.
  - intros path text parse Hparse. unfold analyze. rewrite Hparse.
    destruct (Hraise Analyzer_init) as [e ->]. by exists e.
Qed.

Lemma traversal_faults_on_non_call_assignment_witness :
  let tree := Generic [ Import [{| alias_name := "os"; alias_asname := None |}];
                        With with_open_as_f
                          [ Assign [Name "n"] (Call 2 2 (Attribute (Name "f") "read") [] []);
                            AnnAssign (Name "x") (Name "int") (Some (OtherExpr [])) ] ] in
  (∃ e, visit tree Analyzer_init = Raise e)
  ∧ ∃ e, analyze "a.py" (Ok "text") (λ _, Ok tree) = Raise e.
Proof.
  intros tree.
  assert (assigns_calls_only tree = false) as Hbad by reflexivity.
  split.
  - exact (proj1 (traversal_faults_on_non_call_assignment tree Hbad) Analyzer_init).
  - exact (proj2 (proj2 (traversal_faults_on_non_call_assignment tree Hbad))
             "a.py" "text" (λ _, Ok tree) eq_refl).
Defined.

(** ** The files of a scan *)

Lemma collect_files_filter found :
  collect_files found
  = filter (λ path, ¬ Exists (λ part, part ∈ ignored) (path_parts path)) found.
Proof.
  unfold collect_files.
  assert (∀ files, foldl (λ files path,
            if bool_decide (Exists (λ part, part ∈ ignored) (path_parts path)) then files
            else files ++ [path]) files found
          = files ++ filter (λ path, ¬ Exists (λ part, part ∈ ignored) (path_parts path))
                       found) as Hgen.
  { induction found as [|p found IH]; intros files; simpl; [by rewrite app_nil_r|].
    rewrite IH, filter_cons. case_bool_decide.
    - by rewrite decide_False by tauto.
    - rewrite decide_True by done. by rewrite <- app_assoc. }
  apply (Hgen []).
Qed.

(** X16: [collect_files] keeps, in the order found, exactly the paths
    none of whose parts is an ignored name: its result is the list found
    with the other paths struck out, so that what it keeps stands in the
    order and with the multiplicity it was found in, and collecting from
    two lists one after the other gives the two results one after the
    other. The parts of the root count as well: when the root itself lies
    in or is a directory with an ignored name, every path found under it is
    dropped and nothing is scanned. *)
Theorem collect_files_drops_ignored_paths
    (found : list Path) (root_parts : list string) :
  Exists (λ part, part ∈ ignored) root_parts →
  (∀ path, path ∈ found → root_parts `prefix_of` path_parts path) →
  collect_files found = []
  ∧ (∀ others path,
      path ∈ collect_files others
      ↔ path ∈ others ∧ ∀ part, part ∈ path_parts path → part ∉ ignored)
  ∧ ∀ others,
      collect_files others
      = filter (λ path, Forall (λ part, part ∉ ignored) (path_parts path)) others
      ∧ collect_files others `sublist_of` others
      ∧ (∀ more, collect_files (others ++ more)
                 = collect_files others ++ collect_files more)
      ∧ (∀ path, collect_files (path :: others)
                 = if bool_decide (Forall (λ part, part ∉ ignored) (path_parts path))
                   then path :: collect_files others else collect_files others).
Proof.
  intros Hroot Hfound.
  assert (∀ path : Path,
            ¬ Exists (λ part, part ∈ ignored) (path_parts path)
            ↔ Forall (λ part, part ∉ ignored) (path_parts path)) as Hkeep.
  { intros path. rewrite Exists_exists, Forall_forall. split.
    - intros Hnot part Hpart Hign. apply Hnot. by exists part.
    - intros Hparts (part & Hpart & Hign). by apply (Hparts part). }
  assert (∀ others,
            collect_files others
            = filter (λ path, Forall (λ part, part ∉ ignored) (path_parts path)) others)
    as Hfilter.
  { intros others. rewrite collect_files_filter.
    induction others as [|p others IH]; [done|].
    rewrite !filter_cons, IH.
    destruct (decide (¬ Exists _ _)) as [Hp|Hp], (decide (Forall _ _)) as [Hq|Hq];
      try done.
    - by apply Hkeep in Hp.
    - by apply Hkeep in Hq. }
  split; [|split].
  - rewrite collect_files_filter.
    induction found as [|p found IH]; [done|].
    rewrite filter_cons_False.
    + apply IH. intros path Hin. apply Hfound. by right.
    + intros Hnot. apply Hnot. destruct (Hfound p) as [k ->]; [by left|].
      apply Exists_app. by left.
  - intros others path. rewrite Hfilter, list_elem_of_filter, Forall_forall. tauto.
  - intros others. split; [apply Hfilter|]. split; [|split].
    + rewrite Hfilter. apply sublist_filter.
    + intros more. by rewrite !Hfilter, filter_app.
    + intros path. rewrite !Hfilter, filter_cons.
      case_bool_decide; [by rewrite decide_True|by rewrite decide_False].
Qed.

Lemma collect_files_drops_ignored_paths_witness :
  collect_files [ {| path_str := "build/lib/a.py"; path_parts := ["build"; "lib"; "a.py"] |};
                  {| path_str := "build/b.py"; path_parts := ["build"; "b.py"] |} ]
  = []
  ∧ collect_files [ {| path_str := "b.py"; path_parts := ["b.py"] |};
                    {| path_str := "env/c.py"; path_parts := ["env"; "c.py"] |};
                    {| path_str := "a.py"; path_parts := ["a.py"] |} ]
    = filter (λ path, Forall (λ part, part ∉ ignored) (path_parts path))
        [ {| path_str := "b.py"; path_parts := ["b.py"] |};
          {| path_str := "env/c.py"; path_parts := ["env"; "c.py"] |};
          {| path_str := "a.py"; path_parts := ["a.py"] |} ]
  ∧ collect_files [ {| path_str := "b.py"; path_parts := ["b.py"] |};
                    {| path_str := "env/c.py"; path_parts := ["env"; "c.py"] |};
                    {| path_str := "a.py"; path_parts := ["a.py"] |} ]
    = [ {| path_str := "b.py"; path_parts := ["b.py"] |};
        {| path_str := "a.py"; path_parts := ["a.py"] |} ].
Proof.
  assert (Exists (λ part, part ∈ ignored) ["build"]) as Hroot.
  { apply Exists_cons_hd. unfold ignored.
    repeat (apply elem_of_cons; first [by left|right]). }
  assert (∀ path, path ∈ [ {| path_str := "build/lib/a.py";
                              path_parts := ["build"; "lib"; "a.py"] |};
                           {| path_str := "build/b.py"; path_parts := ["build"; "b.py"] |} ]
                  → ["build"] `prefix_of` path_parts path) as Hfound.
  { intros path Hin. apply elem_of_cons in Hin as [->|Hin].
    - exists ["lib"; "a.py"]. reflexivity.
    - apply list_elem_of_singleton in Hin. subst path. exists ["b.py"]. reflexivity. }
  split; [|split].
  - exact (proj1 (collect_files_drops_ignored_paths _ ["build"] Hroot Hfound)).
  - exact (proj1 (proj2 (proj2 (collect_files_drops_ignored_paths _ ["build"] Hroot Hfound))
             _)).
  - vm_compute. reflexivity.
Defined.

Lemma scan_snoc parse files f :
  scan parse (files ++ [f])
  = (scan parse files ≫= λ issues,
       analyze f.1 f.2 parse ≫= λ found, Ok (issues ++ found)).
Proof. unfold scan. by rewrite foldl_app. Qed.

Lemma scan_all_ok parse files :
  (∀ f, f ∈ files → ∃ issues, analyze f.1 f.2 parse = Ok issues) →
  scan parse files = Ok (flat_map (issues_of parse) files).
Proof.
  induction files as [|f files IH] using rev_ind; intros Hall; [done|].
  rewrite scan_snoc, IH by (intros g Hg; apply Hall, elem_of_app; by left).
  destruct (Hall f) as [issues Hf]; [apply elem_of_app; right; by left|].
  simpl. rewrite Hf. simpl. rewrite flat_map_app. simpl.
  assert (issues_of parse f = issues) as -> by (unfold issues_of; by rewrite Hf).
  by rewrite app_nil_r.
Qed.

Lemma scan_raise parse files e :
  scan parse files = Raise e → ∀ more, scan parse (files ++ more) = Raise e.
Proof.
  intros Hraise more. induction more as [|f more IH] using rev_ind.
  - by rewrite app_nil_r.
  - by rewrite app_assoc, scan_snoc, IH.
Qed.

Lemma scan_aborts parse files1 f files2 e :
  (∀ g, g ∈ files1 → ∃ issues, analyze g.1 g.2 parse = Ok issues) →
  analyze f.1 f.2 parse = Raise e →
  scan parse (files1 ++ f :: files2) = Raise e.
Proof.
  intros Hall Hf. change (f :: files2) with ([f] ++ files2). rewrite app_assoc.
  apply scan_raise. rewrite scan_snoc, scan_all_ok by done. simpl. by rewrite Hf.
Qed.

(** C7: the claim fails on the code. [analyze] guards the reading with
    [except OSError] and the parsing with [except SyntaxError]; for those
    two classes it returns no diagnostic and the file can be left out of
    the scan. They are not the only ways a file fails to be read or parsed:
    [read_text(encoding="utf-8")] raises [UnicodeDecodeError] on a file
    whose bytes are not UTF-8, and [ast.parse] raises [ValueError] on some
    texts. Either class passes through [analyze] and ends the loop of
    [main] at that file, whatever the files before and after it are; the
    run ends with the exception uncaught and the diagnostics gathered so
    far are never printed. *)
Theorem undecodable_file_aborts_the_scan
    (path : string) (text : string) (parse : string → result node)
    (files1 files2 : list (string * result string)) :
  (analyze path (Raise OSError) parse = Ok []
   ∧ scan parse (files1 ++ (path, Raise OSError) :: files2) = scan parse (files1 ++ files2))
  ∧ (parse text = Raise SyntaxError →
     analyze path (Ok text) parse = Ok []
     ∧ scan parse (files1 ++ (path, Ok text) :: files2) = scan parse (files1 ++ files2))
  ∧ analyze path (Raise UnicodeDecodeError) parse = Raise UnicodeDecodeError
  ∧ (parse text = Raise ValueError → analyze path (Ok text) parse = Raise ValueError)
  ∧ ((∀ g, g ∈ files1 → ∃ issues, analyze g.1 g.2 parse = Ok issues) →
     scan parse (files1 ++ (path, Raise UnicodeDecodeError) :: files2)
     = Raise UnicodeDecodeError
     ∧ (parse text = Raise ValueError →
        scan parse (files1 ++ (path, Ok text) :: files2) = Raise ValueError))
  ∧ scan (λ _, Ok reopen_then_close) [("a.py", Ok "a")]
    = Ok ["a.py:2" +:+ tab +:+ "file_handle" +:+ tab]
  ∧ scan (λ _, Ok reopen_then_close) [("a.py", Ok "a"); ("b.py", Raise UnicodeDecodeError)]
    = Raise UnicodeDecodeError
  ∧ main ["prog"; "."]
      (λ _, [ {| path_str := "a.py"; path_parts := ["a.py"] |};
              {| path_str := "b.py"; path_parts := ["b.py"] |} ])
      (λ p, if bool_decide (path_str p = "a.py") then Ok "a" else Raise UnicodeDecodeError)
      (λ _, Ok reopen_then_close)
    = Uncaught UnicodeDecodeError.
Proof.
  split; [|split; [|split; [|split; [|split]]]].
  - split; [done|]. by apply scan_skips.
  - intros Hparse.
    assert (analyze path (Ok text) parse = Ok []) as Hskip.
    { apply analyze_caught. right. by exists text. }
    split; [done|]. by apply scan_skips.
  - done.
  - intros Hparse. unfold analyze. by rewrite Hparse.
  - intros Hall. split.
    + by apply scan_aborts.
    + intros Hparse. apply scan_aborts; [done|]. unfold analyze. simpl. by rewrite Hparse.
  - split; [|split]; vm_compute; reflexivity.
Qed.

(** X17: when the analysis of every file returns, the scan gives the
    diagnostics of the files one after another, in the order of the files;
    when the analysis of one file raises, the scan raises the same
    exception, whatever the files before it gave and whatever comes after. *)
Theorem scan_concatenates_or_aborts
    (parse : string → result node) (files1 files2 : list (string * result string))
    (f : string * result string) (e : exn) :
  (∀ g, g ∈ files1 → ∃ issues, analyze g.1 g.2 parse = Ok issues) →
  analyze f.1 f.2 parse = Raise e →
  scan parse files1 = Ok (flat_map (issues_of parse) files1)
  ∧ scan parse (files1 ++ f :: files2) = Raise e.
Proof. intros Hall Hf. split; [by apply scan_all_ok|by apply scan_aborts]. Qed.

Lemma scan_concatenates_or_aborts_witness :
  scan (λ _, Ok assign_constant) [("a.py", Raise OSError)] = Ok []
  ∧ scan (λ _, Ok assign_constant)
      ([("a.py", Raise OSError)] ++ ("b.py", Ok "x = 5") :: [("c.py", Raise OSError)])
    = Raise AttributeError.
Proof.
  apply (scan_concatenates_or_aborts (λ _, Ok assign_constant)
           [("a.py", Raise OSError)] [("c.py", Raise OSError)] ("b.py", Ok "x = 5")
           AttributeError).
  - intros g Hg. apply list_elem_of_singleton in Hg. subst g. by exists [].
  - reflexivity.
Defined.

(** X18: a run of [main] on a root ends with an uncaught exception, and
    prints nothing, as soon as the analysis of one collected file raises,
    the diagnostics already gathered from the files before it included;
    with any other number of arguments than one it ends with the usage line
    and reads no file. *)
Theorem main_prints_nothing_on_a_fault
    (prog root : string) (rglob : string → list Path)
    (read_text : Path → result string) (parse : string → result node)
    (before after : list Path) (path : Path) (e : exn) :
  collect_files (rglob root) = before ++ path :: after →
  (∀ p, p ∈ before → ∃ issues, analyze (path_str p) (read_text p) parse = Ok issues) →
  analyze (path_str path) (read_text path) parse = Raise e →
  main [prog; root] rglob read_text parse = Uncaught e
  ∧ ∀ argv, List.length argv ≠ 2 → main argv rglob read_text parse = Usage.
Proof.
  intros Hfiles Hbefore Hpath. split.
  - unfold main. rewrite Hfiles, fmap_app, fmap_cons.
    rewrite (scan_aborts parse _ _ _ e); [done| |done].
    intros g (p & -> & Hp)%list_elem_of_fmap. by apply Hbefore.
  - intros [|a [|b [|c argv]]] Hlen; try done.
Qed.

Lemma main_prints_nothing_on_a_fault_witness :
  main ["prog"; "."]
    (λ _, [ {| path_str := "a.py"; path_parts := ["a.py"] |};
            {| path_str := "b.py"; path_parts := ["b.py"] |} ])
    (λ p, Ok (path_str p))
    (λ text, if bool_decide (text = "a.py") then Ok reopen_then_close
             else Ok assign_constant)
  = Uncaught AttributeError.
Proof.
  refine (proj1 (main_prints_nothing_on_a_fault "prog" "." _ _ _
    [ {| path_str := "a.py"; path_parts := ["a.py"] |} ] []
    {| path_str := "b.py"; path_parts := ["b.py"] |} AttributeError _ _ _)).
  - vm_compute. reflexivity.
  - intros p Hp. apply list_elem_of_singleton in Hp. subst p.
    eexists. vm_compute. reflexivity.
  - vm_compute. reflexivity.
Defined.

(** X19: when the analysis of every collected file returns, [main]
    prints the diagnostics of the files in the order collected, joined by
    newlines, and prints nothing at all when there is none; a file that
    could not be read or parsed adds nothing. *)
Theorem main_prints_the_diagnostics
    (prog root : string) (rglob : string → list Path)
    (read_text : Path → result string) (parse : string → result node) :
  (∀ p, p ∈ collect_files (rglob root) →
        ∃ issues, analyze (path_str p) (read_text p) parse = Ok issues) →
  let files := (λ path, (path_str path, read_text path)) <$> collect_files (rglob root) in
  main [prog; root] rglob read_text parse
  = Finished match flat_map (issues_of parse) files with
             | [] => None
             | issues => Some (join newline issues)
             end
  ∧ ∀ f, f ∈ files → (f.2 = Raise OSError ∨ ∃ text, f.2 = Ok text
                                              ∧ parse text = Raise SyntaxError) →
      issues_of parse f = [].
Proof.
  intros Hall files. split.
  - unfold main. fold files. rewrite scan_all_ok.
    + by destruct (flat_map _ _).
    + intros g (p & -> & Hp)%list_elem_of_fmap. by apply Hall.
  - intros f _ [Hbad|(text & Hread & Hparse)]; unfold issues_of, analyze; rewrite ?Hbad.
    + done.
    + by rewrite Hread, Hparse.
Qed.

Lemma main_prints_the_diagnostics_witness :
  main ["prog"; "."]
    (λ _, [ {| path_str := "a.py"; path_parts := ["a.py"] |};
            {| path_str := "env/b.py"; path_parts := ["env"; "b.py"] |};
            {| path_str := "c.py"; path_parts := ["c.py"] |} ])
    (λ p, if bool_decide (path_str p = "a.py") then Ok "a" else Raise OSError)
    (λ _, Ok reopen_then_close)
  = Finished (Some ("a.py:2" +:+ tab +:+ "file_handle" +:+ tab)).
Proof.
  refine (proj1 (main_prints_the_diagnostics "prog" "." _ _ _ _)).
  intros p Hp. vm_compute in Hp.
  apply elem_of_cons in Hp as [->|Hp].
  - eexists. vm_compute. reflexivity.
  - apply list_elem_of_singleton in Hp. subst p. eexists. vm_compute. reflexivity.
Defined.

(** ** Reading a diagnostic back *)

Lemma pretty_N_go_no_tab x s :
  ¬ occurs (Ascii.ascii_of_nat 9) s → ¬ occurs (Ascii.ascii_of_nat 9) (pretty_N_go x s).
Proof.
  revert s. induction (N.lt_wf_0 x) as [x _ IH]; intros s Hs.
  assert (x = 0 ∨ 0 < x)%N as [->|Hpos] by lia.
  - by rewrite pretty_N_go_0.
  - rewrite pretty_N_go_step by done. apply IH.
    { by apply N.div_lt. }
    simpl. intros [Hc|Hs']; [|done]. revert Hc.
    unfold pretty_N_char. by repeat case_match.
Qed.

Lemma pretty_Z_no_tab (x : Z) : ¬ occurs (Ascii.ascii_of_nat 9) (pretty x).
Proof.
  assert (∀ p : positive, ¬ occurs (Ascii.ascii_of_nat 9) (pretty p)) as Hpos.
  { intros p. unfold pretty, pretty_positive, pretty, pretty_N.
    destruct (decide _) as [Heq|_]; [discriminate Heq|].
    apply pretty_N_go_no_tab. by intros []. }
  destruct x as [|p|p]; unfold pretty, pretty_Z.
  - simpl. by intros [|].
  - apply Hpos.
  - simpl. intros [Hc|Hp]; [done|]. by apply (Hpos p).
Qed.

Lemma split_at_char c s1 t1 s2 t2 :
  ¬ occurs c s1 → ¬ occurs c s2 →
  s1 +:+ String c t1 = s2 +:+ String c t2 → s1 = s2 ∧ t1 = t2.
Proof.
  revert s2. induction s1 as [|a s1 IH]; intros [|b s2] H1 H2 Heq; simpl in *.
  - by injection Heq as ->.
  - injection Heq as <- _. destruct H2. by left.
  - injection Heq as -> _. destruct H1. by left.
  - injection Heq as -> Heq. destruct (IH s2) as [-> ->]; try done.
    + intros ?. apply H1. by right.
    + intros ?. apply H2. by right.
Qed.

(** X20: a diagnostic line can be read back: two records that give the
    same line for a path have the same line number and the same kind. *)
Theorem diagnostic_determines_line_and_kind (path : string) (r r' : ResourceRecord) :
  diagnostic path r = diagnostic path r' →
  rec_lineno r = rec_lineno r' ∧ rec_kind r = rec_kind r'.
Proof.
  unfold diagnostic. intros Heq.
  apply (inj (String.app path)) in Heq. apply (inj (String.app ":")) in Heq.
  apply split_at_char in Heq as [Hline Hkind]; [|apply pretty_Z_no_tab..].
  split; [by apply (inj pretty)|].
  destruct (rec_kind r), (rec_kind r'); try done; by vm_compute in Hkind.
Qed.

Lemma diagnostic_determines_line_and_kind_witness :
  let ra := {| rec_name := Some "a"; rec_kind := file_handle; rec_lineno := 1;
               rec_released := false |} in
  let rb := {| rec_name := Some "b"; rec_kind := file_handle; rec_lineno := 1;
               rec_released := false |} in
  records (visited fan_out_assignment) = [ra; rb]
  ∧ ra ≠ rb
  ∧ report "f.py" (visited fan_out_assignment)
    = [diagnostic "f.py" ra; diagnostic "f.py" rb]
  ∧ diagnostic "f.py" ra = diagnostic "f.py" rb
  ∧ rec_lineno ra = rec_lineno rb ∧ rec_kind ra = rec_kind rb.
Proof.
  intros ra rb.
  assert (diagnostic "f.py" ra = diagnostic "f.py" rb) as Hsame by reflexivity.
  split; [reflexivity|]. split; [discriminate|]. split; [reflexivity|].
  split; [exact Hsame|].
  exact (diagnostic_determines_line_and_kind "f.py" ra rb Hsame).
Defined.

(** ** Assignments to several names, and releases in a row *)

Lemma add_records_records names kind lineno st :
  records (add_records names kind lineno st)
  = records st ++ ((λ n, owned n kind lineno) <$> names).
Proof.
  unfold add_records. revert st.
  induction names as [|n names IH]; intros st; simpl; [by rewrite app_nil_r|].
  by rewrite IH, _add_record_records, <- app_assoc.
Qed.

(** X21: an assignment looks at its targets only through the names they
    flatten to, so [a, b = f()], [[a, b] = f()] and [a = b = f()] are
    treated alike. For a kind other than the cancellable context and at
    least one name, the records added are one per name, in the order of the
    names, all unreleased and all with the kind and the line of the call. *)
Theorem assignment_records_one_per_name
    (targets targets' : list expr) (nid : nat) (lineno : Z) (func : expr)
    (args keywords : list expr) (kind : ResourceKind) (st : Analyzer) :
  callee_signature (aliases st) func ≫= target_kind = Some kind →
  kind ≠ context_cancel →
  flat_map _collect_names targets ≠ [] →
  (flat_map _collect_names targets' = flat_map _collect_names targets →
     _handle_assignment targets' (Call nid lineno func args keywords) st
     = _handle_assignment targets (Call nid lineno func args keywords) st)
  ∧ ∃ st1, _handle_assignment targets (Call nid lineno func args keywords) st = Ok st1
      ∧ records st1
        = records st ++ ((λ n, owned n kind lineno) <$> flat_map _collect_names targets)
      ∧ (∀ names : list string,
           flat_map _collect_names [Tuple (Name <$> names)] = names
           ∧ flat_map _collect_names (Name <$> names) = names).
Proof.
  intros Hk Hkind Hnames. split.
  - intros Hsame. rewrite !(_handle_assignment_registered _ _ _ _ _ _ kind) by done.
    unfold assigned_state. by rewrite Hsame.
  - eexists. split; [by apply _handle_assignment_registered|]. split.
    + unfold assigned_state. rewrite bool_decide_eq_false_2 by done.
      destruct (flat_map _collect_names targets) as [|n names] eqn:E; [done|].
      by rewrite add_records_records.
    + intros names. assert (flat_map _collect_names (Name <$> names) = names) as Hflat.
      { induction names as [|n names IH]; [done|]. simpl. by f_equal. }
      split; [|done]. change (flat_map _collect_names [Tuple (Name <$> names)])
        with (flat_map _collect_names (Name <$> names) ++ []).
      by rewrite Hflat, app_nil_r.
Qed.

Lemma assignment_records_one_per_name_witness :
  ∃ st1, _handle_assignment [Name "a"; Name "b"] (Call 1 1 (Name "open") [Name "p"] [])
           Analyzer_init = Ok st1
    ∧ records st1 = [owned "a" file_handle 1; owned "b" file_handle 1].
Proof.
  destruct (assignment_records_one_per_name [Name "a"; Name "b"] [] 1 1%Z (Name "open")
              [Name "p"] [] file_handle Analyzer_init) as (_ & st1 & Hassign & Hrecords & _).
  - vm_compute. reflexivity.
  - discriminate.
  - discriminate.
  - exists st1. split; [exact Hassign|exact Hrecords].
Defined.

Lemma add_lines_records owner kind lines st :
  records (foldl (λ s lineno, _add_record (Some owner) kind lineno s) st lines)
  = records st ++ ((λ lineno, owned owner kind lineno) <$> lines).
Proof.
  revert st. induction lines as [|l lines IH]; intros st; simpl; [by rewrite app_nil_r|].
  by rewrite IH, _add_record_records, <- app_assoc.
Qed.

Lemma add_lines_wf owner kind lines st :
  store_wf st →
  store_wf (foldl (λ s lineno, _add_record (Some owner) kind lineno s) st lines).
Proof.
  revert st. induction lines as [|l lines IH]; intros st Hwf; [done|].
  simpl. by apply IH, _add_record_wf.
Qed.

Lemma filter_marked (rs : list ResourceRecord) :
  filter (λ r, rec_released r = false) (mark <$> rs) = [].
Proof.
  induction rs as [|r rs IH]; [done|].
  rewrite fmap_cons, filter_cons_False; done.
Qed.

Lemma filter_owned owner kind (lines : list Z) :
  filter (λ r, rec_released r = false) ((λ lineno, owned owner kind lineno) <$> lines)
  = (λ lineno, owned owner kind lineno) <$> lines.
Proof.
  induction lines as [|l lines IH]; [done|].
  rewrite fmap_cons, filter_cons_True by done. by rewrite IH.
Qed.

(** X22: releases are first in, first out. After acquisitions by one name
    on the lines [lines], made when the name held no unreleased record of
    the kind, [j] releases mark the records of the first [j] lines and
    leave the others; the diagnostics are those already there and those of
    the remaining lines. *)
Theorem releases_are_first_in_first_out
    (owner : string) (kind : ResourceKind) (lines : list Z) (j : nat) (st : Analyzer) :
  store_wf st → owner ≠ "" →
  (∀ r, r ∈ records st → rec_name r = Some owner → rec_kind r = kind →
        rec_released r = true) →
  j ≤ List.length lines →
  let acquired := foldl (λ s lineno, _add_record (Some owner) kind lineno s) st lines in
  let st' := Nat.iter j (_mark_released owner kind) acquired in
  records st'
  = records st ++ (mark <$> ((λ lineno, owned owner kind lineno) <$> take j lines))
      ++ ((λ lineno, owned owner kind lineno) <$> drop j lines)
  ∧ unreleased st'
    = unreleased st ++ ((λ lineno, owned owner kind lineno) <$> drop j lines).
Proof.
  intros Hwf Hne Hnone Hj acquired st'.
  assert (store_wf st' ∧ records st'
          = records st ++ (mark <$> ((λ lineno, owned owner kind lineno) <$> take j lines))
              ++ ((λ lineno, owned owner kind lineno) <$> drop j lines)) as [_ Hrecords].
  { unfold st'. clear st'. induction j as [|j IH].
    - simpl. rewrite drop_0. split; [by apply add_lines_wf|apply add_lines_records].
    - destruct IH as [Hwfj Hrj]; [lia|]. simpl.
      set (sj := Nat.iter j (_mark_released owner kind) acquired) in *.
      split; [by apply _mark_released_wf|].
      destruct (lookup_lt_is_Some_2 lines j) as [l Hl]; [lia|].
      set (i := List.length (records st) + j).
      assert (List.length (mark <$> ((λ lineno, owned owner kind lineno) <$> take j lines))
              = j) as Hlen.
      { rewrite !length_fmap, length_take. lia. }
      assert (records sj !! i = Some (owned owner kind l)) as Hi.
      { rewrite Hrj. unfold i. rewrite lookup_app_r by lia.
        rewrite lookup_app_r by lia.
        replace (List.length (records st) + j - List.length (records st)
                 - List.length (mark <$> ((λ lineno, owned owner kind lineno)
                                            <$> take j lines))) with 0 by lia.
        rewrite (drop_S _ _ _ Hl). done. }
      rewrite (_mark_released_at sj owner kind i (owned owner kind l)); try done.
      + simpl. rewrite Hrj. unfold i.
        rewrite insert_app_r. f_equal.
        rewrite (take_S_r _ _ _ Hl), !fmap_app, (drop_S _ _ _ Hl). simpl.
        rewrite <- app_assoc. simpl.
        replace j with (List.length (mark <$> ((λ lineno, owned owner kind lineno)
                                                 <$> take j lines)) + 0) at 1 by lia.
        by rewrite insert_app_r.
      + intros k r' Hk Hr' Hn' Hk'. rewrite Hrj in Hr'.
        destruct (decide (k < List.length (records st))) as [Hlt|Hge].
        * rewrite lookup_app_l in Hr' by done. apply Hnone; [|done..].
          by eapply list_elem_of_lookup_2.
        * rewrite lookup_app_r in Hr' by lia.
          rewrite lookup_app_l in Hr' by (unfold i in Hk; lia).
          apply list_lookup_fmap_Some in Hr' as (r0 & -> & _). done. }
  split; [done|]. unfold unreleased. rewrite Hrecords, !filter_app.
  f_equal. by rewrite filter_marked, filter_owned.
Qed.

Lemma releases_are_first_in_first_out_witness :
  unreleased (Nat.iter 1 (_mark_released "a" file_handle)
                (foldl (λ s lineno, _add_record (Some "a") file_handle lineno s)
                   Analyzer_init [1%Z; 2%Z]))
  = unreleased Analyzer_init ++ [owned "a" file_handle 2].
Proof.
  refine (proj2 (releases_are_first_in_first_out "a" file_handle [1%Z; 2%Z] 1
                   Analyzer_init _ _ _ _)).
  - apply Analyzer_init_wf.
  - discriminate.
  - intros r Hr. inversion Hr.
  - simpl. lia.
Defined.
